(** * Decodr: the batch annotation pipeline of [backend/explainer.py]

    A shallow embedding of [call_llm], [generate_batch_explanations],
    [parse_batch_response], [process_folder], [generate_simple_quiz] and
    [main], together with the properties of the retry policy, of the
    response parser and of the explanation slots.

    Python [str] values are lists of Unicode code points.  The completion
    service, the random generator, the file system and the PDF converters
    are oracles; the interpreter's Unicode tables for the characters
    outside ASCII are parameters. *)

From Stdlib Require Import ZArith NArith QArith Qminmax Ascii String Decimal Lia Lqa.
From Stdlib Require Import DecimalNat DecimalFacts.
From stdpp Require Import base list.

Local Open Scope nat_scope.
Set Default Proof Using "Type".

(** ** Python strings *)

Abbreviation str := (list N).

(** An ASCII literal. *)
Definition lit (s : string) : str := map N_of_ascii (list_ascii_of_string s).

(** The line feed, ['\n']. *)
Definition LF : N := 10%N.

(** The two code points of the warning marker, U+26A0 U+FE0F. *)
Definition WARNING : str := [9888%N; 65039%N].

Fixpoint uint_chars (u : Decimal.uint) : str :=
  match u with
  | Decimal.Nil => []
  | Decimal.D0 u => 48%N :: uint_chars u
  | Decimal.D1 u => 49%N :: uint_chars u
  | Decimal.D2 u => 50%N :: uint_chars u
  | Decimal.D3 u => 51%N :: uint_chars u
  | Decimal.D4 u => 52%N :: uint_chars u
  | Decimal.D5 u => 53%N :: uint_chars u
  | Decimal.D6 u => 54%N :: uint_chars u
  | Decimal.D7 u => 55%N :: uint_chars u
  | Decimal.D8 u => 56%N :: uint_chars u
  | Decimal.D9 u => 57%N :: uint_chars u
  end.

(** [f"{n}"] for a non-negative integer. *)
Definition str_of_nat (n : nat) : str := uint_chars (Nat.to_uint n).

(** [s.startswith(p)] *)
Fixpoint startswith (s p : str) : bool :=
  match p, s with
  | [], _ => true
  | _ :: _, [] => false
  | a :: p', b :: s' => (a =? b)%N && startswith s' p'
  end.

(** [s.split(sep)] for a one-character separator: never the empty list. *)
Fixpoint split (sep : N) (s : str) : list str :=
  match s with
  | [] => [[]]
  | c :: s' =>
      if (c =? sep)%N then [] :: split sep s'
      else match split sep s' with
           | [] => [[c]]
           | l :: ls => (c :: l) :: ls
           end
  end.

Fixpoint takewhile (p : N -> bool) (s : str) : str :=
  match s with
  | [] => []
  | c :: s' => if p c then c :: takewhile p s' else []
  end.

Fixpoint dropwhile (p : N -> bool) (s : str) : str :=
  match s with
  | [] => []
  | c :: s' => if p c then dropwhile p s' else s
  end.

(** [s.encode('ascii', errors='ignore').decode('ascii')] *)
Definition ascii_only (s : str) : str := filter (fun c => (c < 128)%N) s.

(** [path.replace("\\", "/")] *)
Definition safe_path (path : str) : str :=
  map (fun c => if (c =? 92)%N then 47%N else c) path.

(** Character classes of [str.strip], [\s] and [\d] on ASCII. *)
Definition ascii_isdecimal (c : N) : bool := (48 <=? c)%N && (c <=? 57)%N.

Definition ascii_isspace (c : N) : bool :=
  ((9 <=? c)%N && (c <=? 13)%N) || ((28 <=? c)%N && (c <=? 32)%N).

(** ** Outcomes of one request, results, and the trace of a run *)

(** What [resp.json()["choices"][0]["message"]["content"]] evaluates to. *)
Inductive json_body : Type :=
  | Content (text : str)
  | InvalidJSON (e : str)
  | Malformed (exc : str).

(** What [requests.post] does: a response with its status code and body,
    or a [RequestException] (time-out, connection error) with its text. *)
Inductive outcome : Type :=
  | Response (status_code : Z) (body : json_body)
  | RequestException (e : str).

Inductive result (A : Type) : Type :=
  | Ret (a : A)
  | Raise (exc : str).
Arguments Ret {A} a.
Arguments Raise {A} exc.

Record request : Type := mkRequest {
  req_model : str;
  req_content : str
}.

(** One completion attempt: the index and name of the model, the value of
    [attempt] and of [retries] in the invocation that made it, and what
    came back. *)
Record attempt_rec : Type := mkAttempt {
  att_model_index : Z;
  att_model : str;
  att_number : nat;
  att_retries : nat;
  att_outcome : outcome
}.

Inductive event : Type :=
  | EvPost (a : attempt_rec)
  | EvSleep (seconds : Q).

Record world : Type := mkWorld {
  requests : nat;
  draws : nat;
  trace : list event
}.

Definition M (A : Type) : Type := world -> result A * world.

Definition ret {A} (a : A) : M A := fun w => (Ret a, w).
Definition raise {A} (exc : str) : M A := fun w => (Raise exc, w).
Definition bind {A B} (m : M A) (k : A -> M B) : M B :=
  fun w => match m w with
           | (Ret a, w') => k a w'
           | (Raise exc, w') => (Raise exc, w')
           end.

Notation "'let*' x := m 'in' k" := (bind m (fun x => k))
  (at level 10, x name, m at level 100, k at level 200).

Definition FREE_MODELS : list str :=
  [ lit "qwen/qwen3-coder:free";
    lit "google/gemma-2-9b-it:free";
    lit "mistralai/mistral-7b-instruct:free" ].

Definition exhausted_msg : str :=
  WARNING ++ lit " Explanation unavailable due to API issues".

Definition failure_msg (e : str) : str :=
  WARNING ++ lit " Could not generate explanation due to API error: " ++ e.

(** [random.uniform(a, b)] is [a + (b - a) * random()]. *)
Definition uniform_of (a b u : Q) : Q := (a + (b - a) * u)%Q.

(** [min(120, (2 ** attempt) * 5 + jitter)], in exact arithmetic: the
    code adds the integer to a float, so what it sleeps is this value
    rounded to a float, and the addition overflows from attempt 1022 on.
    Under the default budget [attempt] is at most 2. *)
Definition rate_limit_wait (attempt : nat) (jitter : Q) : Q :=
  Qmin 120 (inject_Z (2 ^ Z.of_nat attempt * 5) + jitter)%Q.

(** [(2 ** attempt) + jitter], in exact arithmetic as well; here the
    addition overflows from attempt 1024 on. *)
Definition error_wait (attempt : nat) (jitter : Q) : Q :=
  (inject_Z (2 ^ Z.of_nat attempt) + jitter)%Q.

(** ** The corpus and the state of a run *)

(** A file met by [os.walk], in walk order (excluded directories pruned,
    names sorted): its path, its path relative to the folder, its
    lower-cased extension and its size in bytes. *)
Record candidate : Type := mkCandidate {
  cand_path : str;
  cand_rel : str;
  cand_ext : str;
  cand_size : Z
}.

(** An element of [all_files]: [(file_path, rel_path, ext, counter)]. *)
Record entry : Type := mkEntry {
  file_path : str;
  rel_path : str;
  ext : str;
  counter : nat
}.

(** The variables of [process_folder] that the batch loop updates. *)
Record folder_state : Type := mkFolderState {
  explanations : list str;
  code_md : str;
  explanation_md : str
}.

(** What a run leaves behind: the explanation slots and the three texts
    handed to the converters. *)
Record outputs : Type := mkOutputs {
  out_explanations : list str;
  out_code_md : str;
  out_explanation_md : str;
  out_quiz_md : str
}.

(** ** Sample environments *)

(** A Unicode table with no digit and no whitespace outside ASCII; on
    ASCII texts every table gives the same results. *)
Definition no_unicode : N -> bool := fun _ => false.


(** The world before any request. *)
Definition world0 : world := mkWorld 0 0 [].

(** A generator that always draws 0. *)
Definition no_jitter : nat -> Q := fun _ => 0%Q.

Definition sample_http_error (status_code : Z) : str :=
  str_of_nat (Z.to_nat status_code) ++ lit " Client Error".

(** Time-outs on the requests 0, 1 and 3, a rate limit on every other one. *)
Definition service_mixed (n : nat) (_ : request) : outcome :=
  match n with
  | 0 | 1 | 3 => RequestException (lit "timed out")
  | _ => Response 429 (Content [])
  end.


(** A one-line numbered answer to every request. *)
Definition service_ok (_ : nat) (_ : request) : outcome :=
  Response 200 (Content (lit "1. Reads a file")).

(** An answer whose only numbered line has nothing after the number. *)
Definition service_blank (_ : nat) (_ : request) : outcome :=
  Response 200 (Content (lit "1.")).

(** A rate limit on every request. *)
Definition service_busy (_ : nat) (_ : request) : outcome :=
  Response 429 (Content []).

(** A folder with the single file [__init__.py], of size 0. *)
Definition walk_empty_init (_ : str) : list candidate :=
  [mkCandidate (lit "pkg/__init__.py") (lit "__init__.py") (lit ".py") 0].

(** A folder with the single file [a.py]. *)
Definition walk_one_file (_ : str) : list candidate :=
  [mkCandidate (lit "pkg/a.py") (lit "a.py") (lit ".py") 8].

Definition text_empty (_ : str) : option str := Some [].
Definition text_print (_ : str) : option str := Some (lit "print(1)").

Definition converter_ok (_ : str) : bool := true.
Definition fallback_unused (_ : str) : option str := None.
Definition every_dir (_ : str) : bool := true.


(** ** The report and the upload front end: text *)

(** [remove_unicode] of [report.py],
    [re.sub(r'[^\x00-\x7F]+', '', text)]: the scan copies the characters
    up to U+007F and, on any other character, is inside a run that it
    leaves at the next character up to U+007F. *)
Fixpoint remove_unicode (text : str) : str :=
  match text with
  | [] => []
  | c :: rest =>
      if (c <=? 127)%N then c :: remove_unicode rest else skip_run rest
  end
with skip_run (text : str) : str :=
  match text with
  | [] => []
  | c :: rest =>
      if (c <=? 127)%N then c :: remove_unicode rest else skip_run rest
  end.


(** Time-outs on the requests 0 and 1, a rate limit on every later one. *)
Definition service_late_limit (n : nat) (_ : request) : outcome :=
  match n with
  | 0 | 1 => RequestException (lit "timed out")
  | _ => Response 429 (Content [])
  end.

(** A numbered answer whose item has no character of ASCII. *)
Definition service_cjk (_ : nat) (_ : request) : outcome :=
  Response 200 (Content (lit "1. " ++ [35835; 21462; 25991; 20214]%N)).

(** Two numbered lines for the first request, a rate limit afterwards. *)
Definition service_ok_then_busy (n : nat) (_ : request) : outcome :=
  match n with
  | 0 => Response 200 (Content (lit "1. Reads a" ++ [LF] ++ lit "2. Reads b"))
  | _ => Response 429 (Content [])
  end.

(** A rate limit on the requests 0, 1 and 2, one numbered line afterwards. *)
Definition service_busy_then_ok (n : nat) (_ : request) : outcome :=
  match n with
  | 0 | 1 | 2 => Response 429 (Content [])
  | _ => Response 200 (Content (lit "1. Reads c"))
  end.


(** A folder with three files: a batch of two and a batch of one. *)
Definition walk_three_files (_ : str) : list candidate :=
  [mkCandidate (lit "pkg/a.py") (lit "a.py") (lit ".py") 8;
   mkCandidate (lit "pkg/b.py") (lit "b.py") (lit ".py") 8;
   mkCandidate (lit "pkg/c.py") (lit "c.py") (lit ".py") 8].


(** A time-out on every request. *)
Definition service_down (_ : nat) (_ : request) : outcome :=
  RequestException (lit "timed out").

(** One time-out, then an answer with a character outside ASCII. *)
Definition service_flaky (n : nat) (_ : request) : outcome :=
  match n with
  | 0 => RequestException (lit "timed out")
  | _ => Response 200 (Content (lit "1. caf" ++ [233%N] ++ lit " ok"))
  end.


Section Explainer.

(** The code points outside ASCII that the interpreter's Unicode database
    classifies as decimal digits ([\d]) and as whitespace ([\s],
    [str.strip]). *)
Variable unicode_decimal : N -> bool.
Variable unicode_space : N -> bool.

Definition isdecimal (c : N) : bool :=
  if (c <? 128)%N then ascii_isdecimal c else unicode_decimal c.

Definition isspace (c : N) : bool :=
  if (c <? 128)%N then ascii_isspace c else unicode_space c.

Definition lstrip (s : str) : str := dropwhile isspace s.
Definition rstrip (s : str) : str := reverse (dropwhile isspace (reverse s)).
Definition strip (s : str) : str := lstrip (rstrip s).

(** [re.match(r'^\d+[\.\)]', s)] as a truth value. *)
Definition re_match_numbered (s : str) : bool :=
  match takewhile isdecimal s, dropwhile isdecimal s with
  | _ :: _, c :: _ => (c =? 46)%N || (c =? 41)%N
  | _, _ => false
  end.

(** [re.sub(r'^\d+[\.\)]\s*', '', s)] *)
Definition re_sub_numbered (s : str) : str :=
  if re_match_numbered s
  then dropwhile isspace (tail (dropwhile isdecimal s))
  else s.

(** The [for line in lines] loop of [parse_batch_response]. *)
Fixpoint scan_lines (lines : list str) : list str :=
  match lines with
  | [] => []
  | line :: rest =>
      if re_match_numbered (strip line)
      then re_sub_numbered (strip line) :: scan_lines rest
      else scan_lines rest
  end.

(** [range(n)] *)
Definition range (n : Z) : list nat := seq 0 (Z.to_nat n).

Definition placeholder (i : nat) : str := lit "Code file " ++ str_of_nat (i + 1).

Definition parse_batch_response (response : str) (expected_count : Z) : list str :=
  let explanations := scan_lines (split LF response) in
  if negb (Z.of_nat (length explanations) =? expected_count)%Z
  then map placeholder (range expected_count)
  else explanations.

(** ** The completion client and its retry policy *)

(** [str(e)] of the [HTTPError] that [raise_for_status] raises for a
    status code; the text is the HTTP library's. *)
Variable http_error : Z -> str.

(** The completion service: what the n-th request of the run gets. *)
Variable service : nat -> request -> outcome.

(** The n-th value of [random.random()], in the unit interval. *)
Variable random : nat -> Q.

Definition post (model_index : Z) (current_model : str) (attempt retries : nat)
    (content : str) : M outcome :=
  fun w =>
    let o := service (requests w) (mkRequest current_model content) in
    (Ret o,
     mkWorld (S (requests w)) (draws w)
       (trace w ++ [EvPost (mkAttempt model_index current_model attempt retries o)])).

Definition uniform (a b : Q) : M Q :=
  fun w =>
    (Ret (uniform_of a b (random (draws w))),
     mkWorld (requests w) (S (draws w)) (trace w)).

Definition sleep (seconds : Q) : M unit :=
  fun w => (Ret tt, mkWorld (requests w) (draws w) (trace w ++ [EvSleep seconds])).

(** [FREE_MODELS[model_index % len(FREE_MODELS)]] *)
Definition model_at (model_index : Z) : str :=
  nth (Z.to_nat (model_index mod Z.of_nat (length FREE_MODELS))) FREE_MODELS [].

(** The [for attempt in range(retries)] loop of [call_llm]: [k] iterations
    are left, [recurse] is the call [call_llm(prompt, model_index + 1,
    retries - 1)]. *)
Fixpoint attempts (recurse : M str) (model_index : Z) (content : str)
    (retries k attempt : nat) : M str :=
  match k with
  | 0 => ret exhausted_msg
  | S k' =>
      let on_error (e : str) : M str :=
        if attempt =? retries - 1 then ret (failure_msg e)
        else
          let* jitter := uniform 0 3 in
          let* _ := sleep (error_wait attempt jitter) in
          attempts recurse model_index content retries k' (S attempt) in
      let* o := post model_index (model_at model_index) attempt retries content in
      match o with
      | RequestException e => on_error e
      | Response status_code body =>
          if (status_code =? 429)%Z then
            let* jitter := uniform 0 5 in
            let* _ := sleep (rate_limit_wait attempt jitter) in
            recurse
          else if (400 <=? status_code)%Z && (status_code <? 600)%Z then
            on_error (http_error status_code)
          else
            match body with
            | Content text => ret (ascii_only text)
            | InvalidJSON e => on_error e
            | Malformed exc => raise exc
            end
      end
  end.

(** [call_llm(prompt, model_index, retries)]; a negative [retries] behaves
    as 0, the loop body never runs.  The recursion is written without the
    interpreter's limit on nested calls and the waits without their
    overflow: neither is within reach of a budget up to [DEFAULT_RETRIES],
    the budget of every call in the repository. *)
Fixpoint call_llm (retries : nat) (prompt : str) (model_index : Z) : M str :=
  attempts
    (match retries with
     | 0 => ret exhausted_msg
     | S r => call_llm r prompt (model_index + 1)
     end)
    model_index (take (Z.to_nat 8000) prompt) retries retries 0.

(** The default budget, [retries: int = 3]. *)
Definition DEFAULT_RETRIES : nat := 3.

Definition batch_item_prompt (i : nat) (item : str * str * str) : str :=
  let '(filename, code, ext) := item in
  str_of_nat (i + 1) ++ lit ". " ++ filename ++ lit " (" ++ ext ++ lit "):" ++ [LF]
  ++ lit "```" ++ ext ++ [LF] ++ take 500 code ++ [LF] ++ lit "```" ++ [LF; LF].

Fixpoint batch_items_prompt (i : nat) (file_batch : list (str * str * str)) : str :=
  match file_batch with
  | [] => []
  | item :: rest => batch_item_prompt i item ++ batch_items_prompt (S i) rest
  end.

Definition batch_prompt_of (file_batch : list (str * str * str)) : str :=
  lit "Explain each code snippet in exactly 10 words:" ++ [LF; LF]
  ++ batch_items_prompt 0 file_batch
  ++ lit "Provide explanations as a numbered list, each exactly 10 words:".

Definition generate_batch_explanations (file_batch : list (str * str * str))
    : M (list str) :=
  let* response := call_llm DEFAULT_RETRIES (batch_prompt_of file_batch) 0 in
  ret (parse_batch_response response (Z.of_nat (length file_batch))).

(** ** The quiz *)

Definition quiz_header : str :=
  lit "# Quick Project Quiz" ++ [LF; LF]
  ++ lit "## Based on the code explanations" ++ [LF; LF].

Definition quiz_question (i : nat) (explanation : str) : str :=
  lit "### Question " ++ str_of_nat (i + 1) ++ [LF]
  ++ lit "What does this code do?" ++ [LF; LF]
  ++ lit "**Hint:** " ++ explanation ++ [LF; LF]
  ++ lit "A) It processes data  " ++ [LF] ++ lit "B) It handles user input  " ++ [LF]
  ++ lit "C) It manages state  " ++ [LF] ++ lit "D) It renders UI" ++ [LF; LF]
  ++ lit "**Answer:** *Discuss with your team!*" ++ [LF; LF].

(** [explanation and not explanation.startswith(WARNING)] *)
Definition quiz_keeps (explanation : str) : bool :=
  match explanation with
  | [] => false
  | _ :: _ => negb (startswith explanation WARNING)
  end.

(** The [for i, explanation in enumerate(...)] loop of the quiz. *)
Fixpoint quiz_loop (i : nat) (explanations : list str) (quiz_md : str) : str :=
  match explanations with
  | [] => quiz_md
  | explanation :: rest =>
      quiz_loop (S i) rest
        (if quiz_keeps explanation then quiz_md ++ quiz_question i explanation
         else quiz_md)
  end.

Definition generate_simple_quiz (explanations : list str) : str :=
  quiz_loop 0 (take 10 explanations) quiz_header.

(** ** The orchestrator *)

Definition ALLOWED_EXTENSIONS : list str :=
  [ lit ".py"; lit ".js"; lit ".html"; lit ".css";
    lit ".ts"; lit ".jsx"; lit ".java"; lit ".cpp" ].

(** The collection loop of [process_folder] over the walked files. *)
Fixpoint collect (walked : list candidate) (counter : nat) : list entry :=
  match walked with
  | [] => []
  | c :: rest =>
      if bool_decide (cand_ext c ∈ ALLOWED_EXTENSIONS) && (cand_size c <=? 30000)%Z
      then mkEntry (cand_path c) (cand_rel c) (cand_ext c) counter
             :: collect rest (S counter)
      else collect rest counter
  end.

(** The file system: the text of a file, or [None] when reading raises. *)
Variable file_text : str -> option str.

Definition read_code (path : str) : str :=
  match file_text path with
  | Some text => text
  | None => []
  end.

(** The two converters of [save_pdf_from_markdown]: whether the first one
    succeeds on a text, and the exception of the fallback when it fails. *)
Variable weasyprint_ok : str -> bool.
Variable pandoc_failure : str -> option str.

Definition save_pdf_from_markdown (markdown_text : str) : M unit :=
  if weasyprint_ok markdown_text then ret tt
  else match pandoc_failure markdown_text with
       | None => ret tt
       | Some exc => raise exc
       end.

Definition code_section (e : entry) (code : str) : str :=
  lit "## " ++ str_of_nat (counter e) ++ lit ". " ++ safe_path (rel_path e) ++ [LF]
  ++ lit "```" ++ tail (ext e) ++ [LF] ++ code ++ [LF] ++ lit "```" ++ [LF; LF].

Definition explanation_section (e : entry) (explanation : str) : str :=
  lit "## " ++ str_of_nat (counter e) ++ lit ". " ++ safe_path (rel_path e)
  ++ [LF; LF] ++ explanation ++ [LF; LF].

(** The loop that prepares [batch_data] and extends [code_md]. *)
Fixpoint prepare (batch : list entry) (batch_data : list (str * str * str))
    (code_md : str) : list (str * str * str) * str :=
  match batch with
  | [] => (batch_data, code_md)
  | e :: rest =>
      let code := read_code (file_path e) in
      match code with
      | [] => prepare rest batch_data code_md
      | _ :: _ =>
          prepare rest (batch_data ++ [(rel_path e, code, tail (ext e))])
            (code_md ++ code_section e code)
      end
  end.

(** The loop that assigns the explanations of a batch, from index [j]. *)
Fixpoint assign (all_files : list entry) (i j : nat) (batch_explanations : list str)
    (st : folder_state) : folder_state :=
  match batch_explanations with
  | [] => st
  | explanation :: rest =>
      let idx := i + j in
      assign all_files i (S j) rest
        (if idx <? length (explanations st) then
           match all_files !! idx with
           | Some e =>
               mkFolderState (<[idx := explanation]> (explanations st))
                 (code_md st)
                 (explanation_md st ++ explanation_section e explanation)
           | None => st
           end
         else st)
  end.

(** [min(4, max(2, len(all_files) // 10))] *)
Definition batch_size_of (n : nat) : nat := Nat.min 4 (Nat.max 2 (n / 10)).

(** The body of the batch loop at offset [i]. *)
Definition process_batch (all_files : list entry) (batch_size i : nat)
    (st : folder_state) : M folder_state :=
  let batch := take batch_size (drop i all_files) in
  let '(batch_data, code_md') := prepare batch [] (code_md st) in
  let st1 := mkFolderState (explanations st) code_md' (explanation_md st) in
  match batch_data with
  | [] => ret st1
  | _ :: _ =>
      let* batch_explanations := generate_batch_explanations batch_data in
      let st2 := assign all_files i 0 batch_explanations st1 in
      let* _ :=
        (if i + batch_size <? length all_files then
           let* delay := uniform 2 5 in sleep delay
         else ret tt) in
      ret st2
  end.

(** [range(0, n, step)] *)
Definition range_step (n step : nat) : list nat :=
  map (fun k => k * step) (seq 0 ((n + step - 1) / step)).

Fixpoint batch_loop (all_files : list entry) (batch_size : nat) (offsets : list nat)
    (st : folder_state) : M folder_state :=
  match offsets with
  | [] => ret st
  | i :: rest =>
      let* st' := process_batch all_files batch_size i st in
      batch_loop all_files batch_size rest st'
  end.

(** What [os.walk] meets under a folder. *)
Variable walk : str -> list candidate.

Definition process_folder (folder_path : str) : M outputs :=
  let all_files := collect (walk folder_path) 1 in
  let batch_size := batch_size_of (length all_files) in
  let st0 :=
    mkFolderState (replicate (length all_files) [])
      (lit "# Project Code" ++ [LF; LF])
      (lit "# Project Explanations" ++ [LF; LF]) in
  let* st := batch_loop all_files batch_size
               (range_step (length all_files) batch_size) st0 in
  let* _ := save_pdf_from_markdown (code_md st) in
  let* _ := save_pdf_from_markdown (explanation_md st) in
  let quiz_md := generate_simple_quiz (explanations st) in
  let* _ := save_pdf_from_markdown quiz_md in
  ret (mkOutputs (explanations st) (code_md st) (explanation_md st) quiz_md).

(** ** The entry point *)

(** [os.getenv("OPENROUTER_API_KEY")] *)
Variable API_KEY : option str.
Variable isdir : str -> bool.

Definition key_missing : bool :=
  match API_KEY with
  | None | Some [] => true
  | Some (_ :: _) => false
  end.

(** [main()], given [sys.argv]: [sys.exit(1)] raises [SystemExit]. *)
Definition main (argv : list str) : M unit :=
  if key_missing then
    raise (lit "ValueError: OPENROUTER_API_KEY not set in environment variables.")
  else
    match argv with
    | _ :: folder_path :: _ =>
        if isdir folder_path then
          let* _ := process_folder folder_path in ret tt
        else raise (lit "SystemExit: 1")
    | _ => raise (lit "SystemExit: 1")
    end.

(** ** Reading the parser's contract *)

(** A text begins with a decimal number followed by ['.'] or [')']. *)
Definition begins_numbered (s : str) : Prop :=
  exists ds p rest,
    s = ds ++ p :: rest /\ ds <> [] /\
    Forall (fun c => isdecimal c = true) ds /\ (p = 46%N \/ p = 41%N).

(** [aligned lines items]: [items] are, in line order, what follows the
    number and the whitespace after it in the lines that, once trimmed,
    begin with a number. *)
Inductive aligned : list str -> list str -> Prop :=
  | aligned_nil : aligned [] []
  | aligned_skip line lines items :
      ~ begins_numbered (strip line) ->
      aligned lines items ->
      aligned (line :: lines) items
  | aligned_take line lines items ds p rest :
      strip line = ds ++ p :: rest -> ds <> [] ->
      Forall (fun c => isdecimal c = true) ds -> (p = 46%N \/ p = 41%N) ->
      aligned lines items ->
      aligned (line :: lines) (lstrip rest :: items).

(** The same reading without the trimming of the line: the line itself
    begins with the number. *)
Inductive aligned_untrimmed : list str -> list str -> Prop :=
  | untrimmed_nil : aligned_untrimmed [] []
  | untrimmed_skip line lines items :
      ~ begins_numbered line ->
      aligned_untrimmed lines items ->
      aligned_untrimmed (line :: lines) items
  | untrimmed_take line lines items ds p rest :
      line = ds ++ p :: rest -> ds <> [] ->
      Forall (fun c => isdecimal c = true) ds -> (p = 46%N \/ p = 41%N) ->
      aligned_untrimmed lines items ->
      aligned_untrimmed (line :: lines) (lstrip rest :: items).

(** The lines of a response that the scan matches. *)
Definition matched_lines (response : str) : list str :=
  List.filter (fun line => re_match_numbered (strip line)) (split LF response).

(** ** Reading the retry policy *)

(** How [call_llm] treats an outcome: the rate-limit branch, the [except]
    branch with the text of the exception, the returned text, or an
    exception that [except RequestException] does not catch. *)
Inductive verdict : Type :=
  | RateLimited
  | Failed (e : str)
  | Succeeded (text : str)
  | Crashed (exc : str).

Definition classify (o : outcome) : verdict :=
  match o with
  | RequestException e => Failed e
  | Response status_code body =>
      if (status_code =? 429)%Z then RateLimited
      else if (400 <=? status_code)%Z && (status_code <? 600)%Z
      then Failed (http_error status_code)
      else match body with
           | Content text => Succeeded text
           | InvalidJSON e => Failed e
           | Malformed exc => Crashed exc
           end
  end.

Definition rate_limited (o : outcome) : bool :=
  match o with
  | Response status_code _ => (status_code =? 429)%Z
  | RequestException _ => false
  end.

(** The attempts of a trace, in order. *)
Fixpoint posts (evs : list event) : list attempt_rec :=
  match evs with
  | [] => []
  | EvPost a :: rest => a :: posts rest
  | EvSleep _ :: rest => posts rest
  end.

(** The events added to the trace between two worlds. *)
Definition emitted (w w' : world) : list event :=
  drop (length (trace w)) (trace w').

Definition served (o : outcome) : Prop := exists n req, service n req = o.

(** [emits retries model_index attempt evs res]: from iteration [attempt]
    of the loop of [call_llm(prompt, model_index, retries)] on, the events
    [evs] happen and the call ends with [res]. *)
Inductive emits : nat -> Z -> nat -> list event -> result str -> Prop :=
  | emits_exhausted retries mi attempt :
      retries <= attempt ->
      emits retries mi attempt [] (Ret exhausted_msg)
  | emits_success retries mi attempt o text :
      attempt < retries -> served o -> classify o = Succeeded text ->
      emits retries mi attempt
        [EvPost (mkAttempt mi (model_at mi) attempt retries o)]
        (Ret (ascii_only text))
  | emits_crash retries mi attempt o exc :
      attempt < retries -> served o -> classify o = Crashed exc ->
      emits retries mi attempt
        [EvPost (mkAttempt mi (model_at mi) attempt retries o)]
        (Raise exc)
  | emits_failure retries mi attempt o e :
      S attempt = retries -> served o -> classify o = Failed e ->
      emits retries mi attempt
        [EvPost (mkAttempt mi (model_at mi) attempt retries o)]
        (Ret (failure_msg e))
  | emits_retry retries mi attempt o e n rest res :
      S attempt < retries -> served o -> classify o = Failed e ->
      emits retries mi (S attempt) rest res ->
      emits retries mi attempt
        (EvPost (mkAttempt mi (model_at mi) attempt retries o)
         :: EvSleep (error_wait attempt (uniform_of 0 3 (random n))) :: rest)
        res
  | emits_rotate retries mi attempt o n rest res :
      attempt < retries -> served o -> classify o = RateLimited ->
      emits (retries - 1) (mi + 1) 0 rest res ->
      emits retries mi attempt
        (EvPost (mkAttempt mi (model_at mi) attempt retries o)
         :: EvSleep (rate_limit_wait attempt (uniform_of 0 5 (random n))) :: rest)
        res.

(** An action of the client run from a world: its events, its result, and
    one request counted per attempt. *)
Definition runs (m : M str) (retries : nat) (mi : Z) (attempt : nat) : Prop :=
  forall w, exists evs res w',
    m w = (res, w') /\ trace w' = trace w ++ evs /\
    requests w' = requests w + length (posts evs) /\
    draws w <= draws w' /\
    emits retries mi attempt evs res.

(** The largest number of attempts a budget allows: 0, 1, 3, 6, ... *)
Fixpoint budget_bound (retries : nat) : nat :=
  match retries with
  | 0 => 0
  | S r => S r + budget_bound r
  end.

(** The model indices along the attempts of one call, from [mi]. *)
Fixpoint rotation_chain (mi : Z) (atts : list attempt_rec) : Prop :=
  match atts with
  | [] => True
  | a :: rest =>
      att_model_index a = mi /\ att_model a = model_at mi /\
      rotation_chain (if rate_limited (att_outcome a) then (mi + 1)%Z else mi) rest
  end.


(** The text [call_llm] returns when an outcome ends the call. *)
Definition reply_of (o : outcome) : option str :=
  match classify o with
  | Succeeded text => Some (ascii_only text)
  | Failed e => Some (failure_msg e)
  | RateLimited | Crashed _ => None
  end.


(** ** Reading the quiz and the orchestrator *)

(** [enumerate(l)] from [i]. *)
Definition enumerate_from (i : nat) (l : list str) : list (nat * str) :=
  combine (seq i (length l)) l.

(** The numbered explanations that become questions. *)
Definition quiz_questions (explanations : list str) : list (nat * str) :=
  List.filter (fun p => quiz_keeps (snd p)) (enumerate_from 0 (take 10 explanations)).

(** A file whose text reads as non-empty. *)
Definition readable (e : entry) : Prop := read_code (file_path e) <> [].

(** A text none of whose matched lines is left empty by the parser. *)
Definition clean (s : str) : Prop :=
  Forall (fun item => item <> []) (scan_lines (split LF s)).


(** The slots below [k] hold non-empty explanations. *)
Definition filled (n k : nat) (st : folder_state) : Prop :=
  forall idx, idx < k -> idx < n ->
  exists x, explanations st !! idx = Some x /\ x <> [].


(** ** The report and the upload front end: files and functions *)

(** [collect_allowed_files(root_dir, max_files)] of [app.py] over the
    walked files: the loop returns as soon as [len(files) >= max_files]
    after an append. [files] is the list built so far; the set
    [ALLOWED_EXTENSIONS] of [app.py] has the elements of the one above. *)
Fixpoint collect_allowed_files (walked : list candidate) (max_files : Z)
    (files : list str) : list str :=
  match walked with
  | [] => files
  | c :: rest =>
      if bool_decide (cand_ext c ∈ ALLOWED_EXTENSIONS) then
        let files' := files ++ [cand_path c] in
        if (max_files <=? Z.of_nat (length files'))%Z then files'
        else collect_allowed_files rest max_files files'
      else collect_allowed_files rest max_files files
  end.

(** A function as the analyser of [report.py] reports it. *)
Record function_info : Type := mkFunctionInfo {
  fn_name : str;
  cyclomatic_complexity : Z;
  fn_length : Z;
  fn_nloc : Z;
  fn_filename : str
}.

(** The four bars of [create_complexity_chart]: [low], [medium], [high],
    [very_high]. *)
Definition complexity_bars (functions : list function_info) : nat * nat * nat * nat :=
  let complexities := map cyclomatic_complexity functions in
  (length (List.filter (fun c => (c <=? 5)%Z) complexities),
   length (List.filter (fun c => (5 <? c)%Z && (c <=? 10)%Z) complexities),
   length (List.filter (fun c => (10 <? c)%Z && (c <=? 20)%Z) complexities),
   length (List.filter (fun c => (20 <? c)%Z) complexities)).

(** [complex_funcs] of [generate_complexity_stats] and of
    [generate_ai_suggestions], [very_complex_funcs] of the latter. *)
Definition complex_funcs (functions : list function_info) : list function_info :=
  List.filter (fun f => (10 <? cyclomatic_complexity f)%Z) functions.

Definition very_complex_funcs (functions : list function_info) : list function_info :=
  List.filter (fun f => (20 <? cyclomatic_complexity f)%Z) functions.

(** [file_types[ext] += 1] on a [defaultdict(int)], kept in insertion
    order. *)
Fixpoint bump (ext : str) (file_types : list (str * nat)) : list (str * nat) :=
  match file_types with
  | [] => [(ext, 1)]
  | (k, v) :: rest =>
      if decide (k = ext) then (k, S v) :: rest else (k, v) :: bump ext rest
  end.

(** [get_file_type_distribution(project_path)] of [report.py] over the
    walked files. *)
Definition get_file_type_distribution (walked : list candidate)
    : list (str * nat) :=
  fold_left
    (fun file_types c =>
       if bool_decide (cand_ext c ∈ ALLOWED_EXTENSIONS)
       then bump (cand_ext c) file_types
       else file_types)
    walked [].

(** The value a dictionary holds for a key, 0 without the key. *)
Fixpoint dict_get (ext : str) (file_types : list (str * nat)) : nat :=
  match file_types with
  | [] => 0
  | (k, v) :: rest => if decide (k = ext) then v else dict_get ext rest
  end.


(** ** Reading the further properties *)

(** No whitespace at the start, no whitespace at the end. *)
Definition no_lead (s : str) : Prop :=
  match s with [] => True | c :: _ => isspace c = false end.

Definition no_trail (s : str) : Prop := no_lead (reverse s).

(** The sleeps of a trace, in order, and their sum. *)
Fixpoint sleeps (evs : list event) : list Q :=
  match evs with
  | [] => []
  | EvPost _ :: rest => sleeps rest
  | EvSleep d :: rest => d :: sleeps rest
  end.

Definition total_sleep (evs : list event) : Q :=
  fold_right Qplus 0%Q (sleeps evs).

(** [get_explanation(code, filename)]; the dash of "5-8" is U+2013. *)
Definition get_explanation (code filename : str) : M str :=
  call_llm DEFAULT_RETRIES
    (lit "You are a senior coding tutor. Summarize the purpose and flow of "
     ++ filename ++ lit " in **5" ++ [8211%N]
     ++ lit "8 clear bullet points** (avoid repeating code)." ++ [LF; LF]
     ++ lit "Code snippet:" ++ [LF] ++ lit "```python" ++ [LF]
     ++ take 2000 code ++ [LF] ++ lit "```" ++ [LF] ++ lit "Answer:")
    0.


(** The longest total wait from iteration [attempt] of a call with budget
    [retries], for the budgets up to the default one. *)
Definition wait_table (retries attempt : nat) : Q :=
  match retries, attempt with
  | 1, 0 => 10%Q
  | 2, 0 => 29%Q
  | 2, 1 => 25%Q
  | 3, 0 => 63%Q
  | 3, 1 => 59%Q
  | 3, 2 => 54%Q
  | _, _ => 0%Q
  end.


(** The batch of the loop at offset [i]: [all_files[i:i + batch_size]]. *)
Definition batch_at (all_files : list entry) (batch_size i : nat) : list entry :=
  take batch_size (drop i all_files).

(** The truth value of [code] in [if code:]. *)
Definition has_code (e : entry) : bool :=
  match read_code (file_path e) with
  | [] => false
  | _ :: _ => true
  end.


(** * Properties *)

(** ** Parser lemmas *)

Lemma takewhile_dropwhile p s : takewhile p s ++ dropwhile p s = s.
Proof.
  induction s as [|c s IH]; simpl; [reflexivity|].
  destruct (p c); simpl; [now rewrite IH | reflexivity].
Qed.

Lemma takewhile_all p s : Forall (fun c => p c = true) (takewhile p s).
Proof.
  induction s as [|c s IH]; simpl; [constructor|].
  destruct (p c) eqn:E; constructor; assumption.
Qed.

Lemma takewhile_app_stop p ds c rest :
  Forall (fun x => p x = true) ds -> p c = false ->
  takewhile p (ds ++ c :: rest) = ds /\ dropwhile p (ds ++ c :: rest) = c :: rest.
Proof.
  intros Hds Hc. induction Hds as [|d ds Hd _ IH]; simpl.
  - rewrite Hc. split; reflexivity.
  - rewrite Hd. destruct IH as [-> ->]. split; reflexivity.
Qed.

Lemma punct_not_decimal p : p = 46%N \/ p = 41%N -> isdecimal p = false.
Proof. intros [-> | ->]; reflexivity. Qed.

Lemma re_match_numbered_intro ds p rest :
  ds <> [] -> Forall (fun c => isdecimal c = true) ds -> (p = 46%N \/ p = 41%N) ->
  re_match_numbered (ds ++ p :: rest) = true.
Proof.
  intros Hne Hds Hp. unfold re_match_numbered.
  destruct (takewhile_app_stop isdecimal ds p rest Hds (punct_not_decimal p Hp))
    as [-> ->].
  destruct ds as [|d ds]; [congruence|].
  destruct Hp as [-> | ->]; reflexivity.
Qed.

Lemma re_sub_numbered_intro ds p rest :
  ds <> [] -> Forall (fun c => isdecimal c = true) ds -> (p = 46%N \/ p = 41%N) ->
  re_sub_numbered (ds ++ p :: rest) = lstrip rest.
Proof.
  intros Hne Hds Hp. unfold re_sub_numbered.
  rewrite (re_match_numbered_intro ds p rest Hne Hds Hp).
  destruct (takewhile_app_stop isdecimal ds p rest Hds (punct_not_decimal p Hp))
    as [_ ->].
  reflexivity.
Qed.

Lemma re_match_numbered_elim s :
  re_match_numbered s = true -> begins_numbered s.
Proof.
  unfold re_match_numbered. intros H.
  pose proof (takewhile_dropwhile isdecimal s) as Hs.
  pose proof (takewhile_all isdecimal s) as Hall.
  destruct (takewhile isdecimal s) as [|d ds] eqn:Et; [discriminate|].
  destruct (dropwhile isdecimal s) as [|c rest] eqn:Ed; [discriminate|].
  exists (d :: ds), c, rest. repeat split.
  - symmetry. exact Hs.
  - discriminate.
  - exact Hall.
  - apply orb_true_iff in H. destruct H as [H | H]; apply N.eqb_eq in H; auto.
Qed.

Lemma re_match_numbered_spec s :
  re_match_numbered s = true <-> begins_numbered s.
Proof.
  split; [apply re_match_numbered_elim|].
  intros (ds & p & rest & -> & Hne & Hds & Hp).
  apply re_match_numbered_intro; assumption.
Qed.

Lemma aligned_scan_lines lines items :
  aligned lines items -> scan_lines lines = items.
Proof.
  induction 1 as [| line lines items Hno _ IH
                  | line lines items ds p rest Hs Hne Hds Hp _ IH]; simpl.
  - reflexivity.
  - destruct (re_match_numbered (strip line)) eqn:E; [|exact IH].
    exfalso. apply Hno. apply re_match_numbered_spec. exact E.
  - rewrite Hs.
    rewrite (re_match_numbered_intro ds p rest Hne Hds Hp).
    rewrite (re_sub_numbered_intro ds p rest Hne Hds Hp).
    now rewrite IH.
Qed.

Lemma scan_lines_aligned lines : aligned lines (scan_lines lines).
Proof.
  induction lines as [|line lines IH]; simpl; [constructor|].
  destruct (re_match_numbered (strip line)) eqn:E.
  - destruct (re_match_numbered_elim _ E) as (ds & p & rest & Hs & Hne & Hds & Hp).
    rewrite Hs.
    rewrite (re_sub_numbered_intro ds p rest Hne Hds Hp).
    econstructor; eassumption.
  - apply aligned_skip; [|exact IH].
    intros Hb. apply re_match_numbered_spec in Hb. congruence.
Qed.

Lemma scan_lines_matched lines :
  scan_lines lines =
  map (fun line => re_sub_numbered (strip line))
      (List.filter (fun line => re_match_numbered (strip line)) lines).
Proof.
  induction lines as [|line lines IH]; simpl; [reflexivity|].
  destruct (re_match_numbered (strip line)); simpl; now rewrite IH.
Qed.

Lemma length_range n : length (range n) = Z.to_nat n.
Proof. unfold range. apply length_seq. Qed.

Lemma placeholder_nonempty i : placeholder i <> [].
Proof. unfold placeholder. discriminate. Qed.

Lemma parse_batch_response_length response expected_count :
  (0 <= expected_count)%Z ->
  length (parse_batch_response response expected_count) = Z.to_nat expected_count.
Proof.
  intros Hn. unfold parse_batch_response.
  destruct (Z.eqb_spec (Z.of_nat (length (scan_lines (split LF response))))
              expected_count) as [E | E]; simpl.
  - rewrite <- E. now rewrite Nat2Z.id.
  - rewrite length_map. apply length_range.
Qed.

Lemma parse_batch_response_cases response expected_count :
  (Z.of_nat (length (scan_lines (split LF response))) = expected_count /\
   parse_batch_response response expected_count = scan_lines (split LF response)) \/
  (Z.of_nat (length (scan_lines (split LF response))) <> expected_count /\
   parse_batch_response response expected_count =
     map placeholder (range expected_count)).
Proof.
  unfold parse_batch_response.
  destruct (Z.eqb_spec (Z.of_nat (length (scan_lines (split LF response))))
              expected_count) as [E | E]; simpl; [left | right]; split; auto.
Qed.

(** ** The parser's contract *)

(** C2. For every text and every count, [parse_batch_response] returns
    exactly [expected_count] strings; when the number of matched lines
    differs from [expected_count] the result is the whole placeholder
    sequence, "Code file i" for i from 1 to [expected_count], and otherwise
    it is the whole sequence of matched lines: nothing in between. *)
Theorem parse_batch_response_total response expected_count :
  (0 <= expected_count)%Z ->
  length (parse_batch_response response expected_count) = Z.to_nat expected_count /\
  (Z.of_nat (length (matched_lines response)) <> expected_count ->
   parse_batch_response response expected_count
     = map placeholder (range expected_count)) /\
  (Z.of_nat (length (matched_lines response)) = expected_count ->
   parse_batch_response response expected_count
     = map (fun line => re_sub_numbered (strip line)) (matched_lines response)) /\
  (forall i, i < Z.to_nat expected_count ->
   map placeholder (range expected_count) !! i
     = Some (lit "Code file " ++ str_of_nat (i + 1))).
Proof.
  intros Hn.
  assert (Hlen : length (scan_lines (split LF response))
                 = length (matched_lines response)).
  { rewrite scan_lines_matched, length_map. reflexivity. }
  split; [apply parse_batch_response_length; exact Hn|].
  destruct (parse_batch_response_cases response expected_count) as [[E ->] | [E ->]];
    rewrite Hlen in E.
  - split; [congruence|]. split.
    + intros _. apply scan_lines_matched.
    + intros i Hi. rewrite list_lookup_fmap. unfold range.
      rewrite lookup_seq_lt by exact Hi. reflexivity.
  - split; [reflexivity|]. split; [congruence|].
    intros i Hi. rewrite list_lookup_fmap. unfold range.
    rewrite lookup_seq_lt by exact Hi. reflexivity.
Qed.

(** C3, as the code has it. When exactly K lines of the text begin, once
    the whitespace around the line is trimmed, with a decimal number
    followed by ['.'] or [')'], and [expected_count] is K, the parser
    returns, in line order, what follows the number and the whitespace
    after it in these trimmed lines; the two-line response of the scenario
    yields "Parses input" and "Validates output". *)
Theorem parse_batch_response_aligned :
  (forall response items,
     aligned (split LF response) items ->
     parse_batch_response response (Z.of_nat (length items)) = items) /\
  parse_batch_response
    (lit "1. Parses input" ++ [LF] ++ lit "2. Validates output" ++ [LF]) 2
  = [lit "Parses input"; lit "Validates output"].
Proof.
  split; [|vm_compute; reflexivity].
  intros response items H.
  apply aligned_scan_lines in H.
  unfold parse_batch_response. rewrite H, Z.eqb_refl. reflexivity.
Qed.

(** ** The retry loop, one iteration at a time *)

Lemma classify_rate_limited o : classify o = RateLimited <-> rate_limited o = true.
Proof.
  destruct o as [s b | e]; simpl; [|split; discriminate].
  destruct (s =? 429)%Z; [split; reflexivity|].
  split; [|discriminate].
  destruct ((400 <=? s)%Z && (s <? 600)%Z); [discriminate|].
  destruct b; discriminate.
Qed.

Lemma attempts_step recurse mi content retries k attempt w :
  attempts recurse mi content retries (S k) attempt w =
  let o := service (requests w) (mkRequest (model_at mi) content) in
  let posted :=
    trace w ++ [EvPost (mkAttempt mi (model_at mi) attempt retries o)] in
  let w1 := mkWorld (S (requests w)) (draws w) posted in
  match classify o with
  | Succeeded text => (Ret (ascii_only text), w1)
  | Crashed exc => (Raise exc, w1)
  | Failed e =>
      if attempt =? retries - 1 then (Ret (failure_msg e), w1)
      else
        attempts recurse mi content retries k (S attempt)
          (mkWorld (S (requests w)) (S (draws w))
             (posted ++ [EvSleep (error_wait attempt
                                    (uniform_of 0 3 (random (draws w))))]))
  | RateLimited =>
      recurse
        (mkWorld (S (requests w)) (S (draws w))
           (posted ++ [EvSleep (rate_limit_wait attempt
                                  (uniform_of 0 5 (random (draws w))))]))
  end.
Proof.
  cbn [attempts]. unfold bind at 1. unfold post at 1. cbn beta iota zeta.
  destruct (service (requests w) (mkRequest (model_at mi) content)) as [s b | e];
    cbn [classify].
  - destruct (s =? 429)%Z; [reflexivity|].
    destruct ((400 <=? s)%Z && (s <? 600)%Z).
    + destruct (attempt =? retries - 1); reflexivity.
    + destruct b; try reflexivity.
      destruct (attempt =? retries - 1); reflexivity.
  - destruct (attempt =? retries - 1); reflexivity.
Qed.

Lemma posts_app evs1 evs2 : posts (evs1 ++ evs2) = posts evs1 ++ posts evs2.
Proof.
  induction evs1 as [|[a | d] evs1 IH]; simpl; [reflexivity | now rewrite IH | exact IH].
Qed.

Lemma attempts_runs recurse mi content retries :
  runs recurse (retries - 1) (mi + 1) 0 ->
  forall k attempt, k + attempt = retries ->
  runs (attempts recurse mi content retries k attempt) retries mi attempt.
Proof.
  intros Hrec k. induction k as [|k IH]; intros attempt Hk w.
  - exists [], (Ret exhausted_msg), w. simpl.
    rewrite app_nil_r, Nat.add_0_r.
    repeat split; [lia|]. constructor. lia.
  - rewrite attempts_step. cbv zeta.
    set (o := service (requests w) (mkRequest (model_at mi) content)).
    assert (Hserved : served o) by (eexists _, _; reflexivity).
    destruct (classify o) as [| e | text | exc] eqn:Hc.
    + match goal with |- context [recurse ?w1] =>
        destruct (Hrec w1) as (evs & res & w' & -> & Ht & Hr & Hd & He) end.
      cbn [trace requests draws] in Ht, Hr, Hd.
      eexists (_ :: _ :: evs), res, w'. split; [reflexivity|].
      split; [rewrite Ht, <- !app_assoc; reflexivity|].
      split; [simpl; lia|]. split; [lia|].
      apply emits_rotate; auto. lia.
    + destruct (Nat.eqb_spec attempt (retries - 1)) as [E | E].
      * eexists [_], _, _. split; [reflexivity|]. cbn [trace requests draws].
        repeat split; [simpl; lia | lia |].
        apply emits_failure; auto. lia.
      * match goal with |- context [attempts _ _ _ _ _ _ ?w1] =>
          destruct (IH (S attempt) ltac:(lia) w1)
            as (evs & res & w' & -> & Ht & Hr & Hd & He) end.
        cbn [trace requests draws] in Ht, Hr, Hd.
        eexists (_ :: _ :: evs), res, w'. split; [reflexivity|].
        split; [rewrite Ht, <- !app_assoc; reflexivity|].
        split; [simpl; lia|]. split; [lia|].
        eapply emits_retry; eauto. lia.
    + eexists [_], _, _. split; [reflexivity|]. cbn [trace requests draws].
      repeat split; [simpl; lia | lia |].
      apply emits_success; auto. lia.
    + eexists [_], _, _. split; [reflexivity|]. cbn [trace requests draws].
      repeat split; [simpl; lia | lia |].
      apply emits_crash; auto. lia.
Qed.

Lemma call_llm_runs retries :
  forall prompt mi, runs (call_llm retries prompt mi) retries mi 0.
Proof.
  induction retries as [|r IH]; intros prompt mi.
  - cbn [call_llm]. apply attempts_runs; [|lia].
    intros w. exists [], (Ret exhausted_msg), w. simpl.
    rewrite app_nil_r, Nat.add_0_r. repeat split; [lia|]. constructor. lia.
  - cbn [call_llm]. apply attempts_runs; [|lia].
    replace (S r - 1) with r by lia. apply IH.
Qed.

(** ** What the retry relation implies *)

Lemma failed_not_rate_limited o e : classify o = Failed e -> rate_limited o = false.
Proof.
  intros H. destruct (rate_limited o) eqn:E; [|reflexivity].
  apply classify_rate_limited in E. congruence.
Qed.

Lemma emitted_app w w' evs : trace w' = trace w ++ evs -> emitted w w' = evs.
Proof. intros H. unfold emitted. rewrite H. apply drop_app_length. Qed.

Lemma emits_bound retries mi attempt evs res :
  emits retries mi attempt evs res ->
  length (posts evs) <= (retries - attempt) + budget_bound (retries - 1).
Proof.
  induction 1; simpl; try lia.
  destruct retries as [|[|r]]; simpl in *; rewrite ?Nat.sub_0_r in *; lia.
Qed.

Lemma emits_chain retries mi attempt evs res :
  emits retries mi attempt evs res -> rotation_chain mi (posts evs).
Proof.
  induction 1 as [ | | | | ? ? ? o e ? ? ? ? ? Hc ? IH | ? ? ? o ? ? ? ? ? Hc ? IH];
    simpl; auto.
  - rewrite (failed_not_rate_limited o e Hc). auto.
  - apply classify_rate_limited in Hc. rewrite Hc. auto.
Qed.

Lemma emits_backoff retries mi attempt evs res :
  emits retries mi attempt evs res ->
  forall i a, evs !! i = Some (EvPost a) -> rate_limited (att_outcome a) = true ->
  exists n, evs !! S i
            = Some (EvSleep (rate_limit_wait (att_number a) (uniform_of 0 5 (random n)))).
Proof.
  induction 1 as [ | ? ? ? o ? ? ? Hc | ? ? ? o ? ? ? Hc | ? ? ? o ? ? ? Hc
                 | ? ? ? o e n ? ? ? ? Hc ? IH | ? ? ? o n ? ? ? ? Hc ? IH];
    intros i a Hi Ha.
  - discriminate.
  - destruct i; [|discriminate]. injection Hi as <-. simpl in Ha.
    apply classify_rate_limited in Ha. congruence.
  - destruct i; [|discriminate]. injection Hi as <-. simpl in Ha.
    apply classify_rate_limited in Ha. congruence.
  - destruct i; [|discriminate]. injection Hi as <-. simpl in Ha.
    apply classify_rate_limited in Ha. congruence.
  - destruct i as [|[|i]].
    + injection Hi as <-. simpl in Ha.
      apply classify_rate_limited in Ha. congruence.
    + discriminate.
    + apply (IH i a Hi Ha).
  - destruct i as [|[|i]].
    + injection Hi as <-. exists n. reflexivity.
    + discriminate.
    + apply (IH i a Hi Ha).
Qed.

Lemma posts_lookup evs : forall i a,
  evs !! i = Some (EvPost a) -> In a (posts evs).
Proof.
  induction evs as [|[x | d] evs IH]; intros i a Hi; [discriminate| |].
  - destruct i; [injection Hi as <-; left; reflexivity|].
    right. apply (IH i a Hi).
  - destruct i; [discriminate|]. apply (IH i a Hi).
Qed.

Lemma emits_result retries mi attempt evs res :
  emits retries mi attempt evs res ->
  forall s, res = Ret s ->
  s = exhausted_msg \/ exists o, served o /\ reply_of o = Some s.
Proof.
  induction 1 as [ | ? ? ? o ? ? Hs Hc | | ? ? ? o ? ? Hs Hc | | ];
    intros s Hres; auto.
  - injection Hres as <-. now left.
  - injection Hres as <-. right. exists o. split; [exact Hs|].
    unfold reply_of. now rewrite Hc.
  - discriminate.
  - injection Hres as <-. right. exists o. split; [exact Hs|].
    unfold reply_of. now rewrite Hc.
Qed.

Lemma rotation_chain_adjacent atts : forall mi i a b,
  rotation_chain mi atts -> atts !! i = Some a -> atts !! S i = Some b ->
  att_model a = model_at (att_model_index a) /\
  att_model b = model_at (att_model_index b) /\
  att_model_index b
    = (if rate_limited (att_outcome a) then att_model_index a + 1
       else att_model_index a)%Z.
Proof.
  induction atts as [|x atts IH]; intros mi i a b Hch Ha Hb; [discriminate|].
  destruct Hch as (Hx & Hm & Hrest).
  destruct i as [|i].
  - injection Ha as <-. destruct atts as [|y atts]; [discriminate|].
    injection Hb as <-. destruct Hrest as (Hy & Hym & _).
    rewrite Hx, Hy. split; [exact Hm|]. split; [|reflexivity].
    rewrite Hym. reflexivity.
  - apply (IH _ i a b Hrest Ha Hb).
Qed.

(** The number of attempts of one call never exceeds [budget_bound]: with
    the default budget, six. *)
Lemma call_llm_attempts_bound retries prompt mi w :
  length (posts (emitted w (snd (call_llm retries prompt mi w))))
  <= budget_bound retries.
Proof.
  destruct (call_llm_runs retries prompt mi w)
    as (evs & res & w' & -> & Ht & _ & _ & He).
  cbn [snd]. rewrite (emitted_app _ _ _ Ht).
  apply emits_bound in He. destruct retries; simpl in *; [lia|].
  rewrite Nat.sub_0_r in He. lia.
Qed.

(** ** The retry policy *)


(** C7. Within one call, an attempt that follows a rate-limited attempt
    made with model index i is made with index i + 1 and with the model at
    position (i + 1) mod M of the chain; after any other attempt the index
    is unchanged, so the index never decreases, and every attempt uses the
    model at its index modulo M. *)
Theorem call_llm_rotation retries prompt mi w i a b :
  let atts := posts (emitted w (snd (call_llm retries prompt mi w))) in
  atts !! i = Some a -> atts !! S i = Some b ->
  (rate_limited (att_outcome a) = true ->
   att_model_index b = (att_model_index a + 1)%Z /\
   att_model b
     = nth (Z.to_nat ((att_model_index a + 1) mod Z.of_nat (length FREE_MODELS)))
         FREE_MODELS []) /\
  (rate_limited (att_outcome a) = false -> att_model_index b = att_model_index a) /\
  (att_model_index a <= att_model_index b)%Z /\
  att_model a
    = nth (Z.to_nat (att_model_index a mod Z.of_nat (length FREE_MODELS)))
        FREE_MODELS [].
Proof.
  intros atts Ha Hb. subst atts.
  destruct (call_llm_runs retries prompt mi w)
    as (evs & res & w' & Hrun & Ht & _ & _ & He).
  rewrite Hrun in Ha, Hb. cbn [snd] in Ha, Hb.
  rewrite (emitted_app _ _ _ Ht) in Ha, Hb.
  destruct (rotation_chain_adjacent _ mi i a b (emits_chain _ _ _ _ _ He) Ha Hb)
    as (Hma & Hmb & Hidx).
  split; [|split; [|split]].
  - intros Hr. rewrite Hr in Hidx. split; [exact Hidx|].
    rewrite Hmb, Hidx. reflexivity.
  - intros Hr. rewrite Hr in Hidx. exact Hidx.
  - destruct (rate_limited (att_outcome a)); lia.
  - exact Hma.
Qed.

(** ** The quiz *)

Lemma quiz_loop_spec l : forall i quiz_md,
  quiz_loop i l quiz_md
  = quiz_md ++ concat (map (fun p => quiz_question (fst p) (snd p))
                         (List.filter (fun p => quiz_keeps (snd p))
                            (enumerate_from i l))).
Proof.
  unfold enumerate_from.
  induction l as [|e l IH]; intros i quiz_md; simpl.
  - now rewrite app_nil_r.
  - rewrite IH. destruct (quiz_keeps e); simpl; [|reflexivity].
    now rewrite <- app_assoc.
Qed.

Lemma in_enumerate_from l : forall s i x,
  In (i, x) (enumerate_from s l) <-> s <= i /\ l !! (i - s) = Some x.
Proof.
  unfold enumerate_from.
  induction l as [|e l IH]; intros s i x; simpl.
  - split; [intros [] | intros [_ H]; discriminate].
  - rewrite IH. split.
    + intros [H | [Hle Hl]].
      * injection H as <- <-. split; [lia|]. now rewrite Nat.sub_diag.
      * split; [lia|]. replace (i - s) with (S (i - S s)) by lia. exact Hl.
    + intros [Hle Hl]. destruct (i - s) as [|n] eqn:E.
      * left. injection Hl as <-. f_equal. lia.
      * right. split; [lia|]. replace (i - S s) with n by lia. exact Hl.
Qed.

Lemma quiz_keeps_spec x :
  quiz_keeps x = true <-> x <> [] /\ startswith x WARNING = false.
Proof.
  unfold quiz_keeps. destruct x as [|c x].
  - split; [discriminate | intros [H _]; congruence].
  - rewrite negb_true_iff. split; [intros H; split; [discriminate | exact H] | intros [_ H]; exact H].
Qed.

Lemma length_enumerate_from s l : length (enumerate_from s l) = length l.
Proof.
  unfold enumerate_from. rewrite length_combine, length_seq. lia.
Qed.

Lemma length_quiz_questions explanations :
  length (quiz_questions explanations) <= Nat.min 10 (length explanations).
Proof.
  unfold quiz_questions.
  etransitivity; [apply List.filter_length_le|].
  rewrite length_enumerate_from, length_take. lia.
Qed.

(** C10. The quiz is the header followed by one question per kept entry
    among the first ten, numbered by position: at most ten questions, and
    an entry is kept exactly when it is not empty and does not begin with
    the warning marker; entries after the tenth change nothing. *)
Theorem generate_simple_quiz_questions explanations :
  generate_simple_quiz explanations
    = quiz_header
      ++ concat (map (fun p => quiz_question (fst p) (snd p))
                   (quiz_questions explanations)) /\
  length (quiz_questions explanations) <= 10 /\
  length (quiz_questions explanations) <= length explanations /\
  (forall i x,
     In (i, x) (quiz_questions explanations) <->
     i < 10 /\ explanations !! i = Some x /\ x <> [] /\ startswith x WARNING = false) /\
  generate_simple_quiz explanations = generate_simple_quiz (take 10 explanations).
Proof.
  pose proof (length_quiz_questions explanations) as Hlen.
  split; [apply quiz_loop_spec|].
  split; [lia|]. split; [lia|]. split.
  - intros i x. unfold quiz_questions.
    rewrite List.filter_In, in_enumerate_from, quiz_keeps_spec. cbn [snd].
    rewrite Nat.sub_0_r, lookup_take_Some. split.
    + intros [(_ & Hl & Hi) Hk]. exact (conj Hi (conj Hl Hk)).
    + intros (Hi & Hl & Hk). split; [split; [lia | exact (conj Hl Hi)] | exact Hk].
  - unfold generate_simple_quiz. now rewrite take_take, Nat.min_id.
Qed.

(** ** The orchestrator, one batch at a time *)

Lemma prepare_length batch : forall batch_data md,
  length (fst (prepare batch batch_data md)) <= length batch_data + length batch.
Proof.
  induction batch as [|e batch IH]; intros bd md; simpl; [lia|].
  destruct (read_code (file_path e)) as [|c code].
  - specialize (IH bd md). lia.
  - match goal with |- context [prepare batch ?b ?m] => specialize (IH b m) end.
    rewrite length_app in IH. simpl in IH. lia.
Qed.

Lemma prepare_length_readable batch : forall batch_data md,
  Forall readable batch ->
  length (fst (prepare batch batch_data md)) = length batch_data + length batch.
Proof.
  induction batch as [|e batch IH]; intros bd md Hr; simpl; [lia|].
  inversion Hr as [|? ? He Hrest]; subst. unfold readable in He.
  destruct (read_code (file_path e)) as [|c code]; [congruence|].
  rewrite IH by exact Hrest. rewrite length_app. simpl. lia.
Qed.

Lemma assign_explanations all_files i exps : forall j st,
  length (explanations st) = length all_files ->
  length (explanations (assign all_files i j exps st)) = length all_files /\
  forall idx,
    explanations (assign all_files i j exps st) !! idx
    = if decide (i + j <= idx < i + j + length exps /\ idx < length all_files)
      then exps !! (idx - (i + j))
      else explanations st !! idx.
Proof.
  induction exps as [|e exps IH]; intros j st Hlen.
  - split; [exact Hlen|]. intros idx. simpl. case_decide; [lia | reflexivity].
  - cbn [assign]. cbv zeta.
    set (st1 := if i + j <? length (explanations st) then _ else st).
    assert (H1 : length (explanations st1) = length all_files /\
                 forall idx, explanations st1 !! idx
                   = if decide (idx = i + j /\ idx < length all_files)
                     then Some e else explanations st !! idx).
    { subst st1. destruct (Nat.ltb_spec (i + j) (length (explanations st))) as [Hlt | Hge].
      - destruct (lookup_lt_is_Some_2 all_files (i + j)) as [f ->]; [lia|].
        cbn [explanations]. split; [now rewrite length_insert|].
        intros idx. case_decide as Hd.
        + destruct Hd as [-> _]. apply list_lookup_insert_eq. exact Hlt.
        + apply list_lookup_insert_ne. lia.
      - split; [exact Hlen|]. intros idx. case_decide; [lia | reflexivity]. }
    destruct H1 as [Hlen1 Hlook1].
    destruct (IH (S j) st1 Hlen1) as [Hlen2 Hlook2].
    split; [exact Hlen2|].
    intros idx. rewrite Hlook2, Hlook1. cbn [length].
    repeat case_decide; try lia.
    + replace (idx - (i + j)) with (S (idx - (i + S j))) by lia. reflexivity.
    + replace (idx - (i + j)) with 0 by lia. reflexivity.
    + reflexivity.
Qed.

Lemma generate_batch_explanations_runs file_batch w :
  exists evs res w',
    call_llm DEFAULT_RETRIES (batch_prompt_of file_batch) 0 w = (res, w') /\
    trace w' = trace w ++ evs /\
    requests w' = requests w + length (posts evs) /\
    emits DEFAULT_RETRIES 0 0 evs res /\
    generate_batch_explanations file_batch w
    = (match res with
       | Ret response =>
           Ret (parse_batch_response response (Z.of_nat (length file_batch)))
       | Raise exc => Raise exc
       end, w').
Proof.
  destruct (call_llm_runs DEFAULT_RETRIES (batch_prompt_of file_batch) 0 w)
    as (evs & res & w' & Hrun & Ht & Hr & _ & He).
  exists evs, res, w'. repeat split; auto.
  unfold generate_batch_explanations, bind. rewrite Hrun.
  destruct res; reflexivity.
Qed.

Lemma generate_batch_explanations_length file_batch w exps w' :
  generate_batch_explanations file_batch w = (Ret exps, w') ->
  length exps = length file_batch.
Proof.
  destruct (generate_batch_explanations_runs file_batch w)
    as (evs & res & w1 & _ & _ & _ & _ & ->).
  destruct res; [|discriminate]. intros [= <- <-].
  rewrite parse_batch_response_length by lia. apply Nat2Z.id.
Qed.

(** What one iteration of the batch loop does, in terms of the batch's
    completion call. *)
Lemma process_batch_cases all_files batch_size i st w :
  let batch := take batch_size (drop i all_files) in
  let batch_data := fst (prepare batch [] (code_md st)) in
  let st1 := mkFolderState (explanations st)
               (snd (prepare batch [] (code_md st))) (explanation_md st) in
  (batch_data = [] /\ process_batch all_files batch_size i st w = (Ret st1, w)) \/
  (batch_data <> [] /\
   exists res w1,
     generate_batch_explanations batch_data w = (res, w1) /\
     match res with
     | Raise exc => process_batch all_files batch_size i st w = (Raise exc, w1)
     | Ret exps =>
         exists w',
           process_batch all_files batch_size i st w
           = (Ret (assign all_files i 0 exps st1), w') /\
           requests w' = requests w1 /\
           exists evs, trace w' = trace w1 ++ evs /\ posts evs = []
     end).
Proof.
  cbv zeta. unfold process_batch.
  destruct (prepare (take batch_size (drop i all_files)) [] (code_md st))
    as [bd md] eqn:Hp. cbn [fst snd].
  destruct bd as [|item bd]; [left; split; reflexivity|].
  right. split; [discriminate|].
  destruct (generate_batch_explanations (item :: bd) w) as [res w1] eqn:Hg.
  exists res, w1. split; [reflexivity|].
  destruct res as [exps | exc]; unfold bind at 1; rewrite Hg; [|reflexivity].
  unfold bind, uniform, sleep, ret.
  destruct (i + batch_size <? length all_files).
  - eexists. split; [reflexivity|]. cbn [requests trace]. split; [reflexivity|].
    eexists [_]. split; reflexivity.
  - eexists. split; [reflexivity|]. split; [reflexivity|].
    exists []. rewrite app_nil_r. split; reflexivity.
Qed.

Lemma process_batch_length all_files batch_size i st w st' w' :
  process_batch all_files batch_size i st w = (Ret st', w') ->
  length (explanations st) = length all_files ->
  length (explanations st') = length all_files.
Proof.
  intros Hrun Hlen.
  destruct (process_batch_cases all_files batch_size i st w)
    as [[_ H] | (_ & res & w1 & _ & H)].
  - rewrite H in Hrun. injection Hrun as <- _. exact Hlen.
  - destruct res as [exps | exc]; [|congruence].
    destruct H as (w2 & H & _). rewrite H in Hrun. injection Hrun as <- _.
    apply assign_explanations. exact Hlen.
Qed.

Lemma batch_loop_length all_files batch_size offsets : forall st w st' w',
  batch_loop all_files batch_size offsets st w = (Ret st', w') ->
  length (explanations st) = length all_files ->
  length (explanations st') = length all_files.
Proof.
  induction offsets as [|i offsets IH]; intros st w st' w' Hrun Hlen.
  - injection Hrun as <- _. exact Hlen.
  - cbn [batch_loop] in Hrun. unfold bind in Hrun.
    destruct (process_batch all_files batch_size i st w) as [[st1 | exc] w1] eqn:Hb;
      [|discriminate].
    eapply IH; [exact Hrun|].
    eapply process_batch_length; eassumption.
Qed.

Lemma process_folder_inv folder_path w out w' :
  process_folder folder_path w = (Ret out, w') ->
  let all_files := collect (walk folder_path) 1 in
  exists st,
    batch_loop all_files (batch_size_of (length all_files))
      (range_step (length all_files) (batch_size_of (length all_files)))
      (mkFolderState (replicate (length all_files) [])
         (lit "# Project Code" ++ [LF; LF])
         (lit "# Project Explanations" ++ [LF; LF])) w
    = (Ret st, w') /\
    out = mkOutputs (explanations st) (code_md st) (explanation_md st)
            (generate_simple_quiz (explanations st)).
Proof.
  cbv zeta. unfold process_folder. unfold bind at 1.
  match goal with |- context [batch_loop ?a ?b ?c ?d w] =>
    destruct (batch_loop a b c d w) as [[st | exc] w1] eqn:Hloop end;
    [|discriminate].
  unfold bind, save_pdf_from_markdown, ret, raise.
  intros H. exists st.
  repeat match type of H with
         | context [if ?c then _ else _] => destruct c
         | context [match pandoc_failure ?m with _ => _ end] =>
             destruct (pandoc_failure m)
         end; try discriminate; injection H as <- <-; split; reflexivity.
Qed.

(** ** Placeholders and non-empty slots *)

Lemma exhausted_msg_unmatched : scan_lines (split LF exhausted_msg) = [].
Proof.
  cbv.
  repeat match goal with
         | |- context [unicode_space ?c] => destruct (unicode_space c); cbv
         | |- context [unicode_decimal ?c] => destruct (unicode_decimal c); cbv
         end;
  reflexivity.
Qed.

Lemma parse_exhausted n :
  parse_batch_response exhausted_msg (Z.of_nat n) = map placeholder (seq 0 n).
Proof.
  unfold parse_batch_response. rewrite exhausted_msg_unmatched.
  unfold range. rewrite Nat2Z.id. destruct n; reflexivity.
Qed.

Lemma parse_nonempty s n :
  clean s -> Forall (fun item => item <> []) (parse_batch_response s n).
Proof.
  intros Hc.
  destruct (parse_batch_response_cases s n) as [[_ ->] | [_ ->]]; [exact Hc|].
  apply Forall_forall. intros x Hx. apply list_elem_of_fmap in Hx.
  destruct Hx as (i & -> & _). apply placeholder_nonempty.
Qed.

Lemma generate_batch_explanations_nonempty file_batch w exps w' :
  (forall o s, served o -> reply_of o = Some s -> clean s) ->
  generate_batch_explanations file_batch w = (Ret exps, w') ->
  Forall (fun item => item <> []) exps.
Proof.
  intros Hclean.
  destruct (generate_batch_explanations_runs file_batch w)
    as (evs & res & w1 & _ & _ & _ & He & ->).
  destruct res as [s|]; [|discriminate]. intros [= <- <-].
  apply parse_nonempty.
  destruct (emits_result _ _ _ _ _ He s eq_refl) as [-> | (o & Hs & Hr)].
  - unfold clean. rewrite exhausted_msg_unmatched. constructor.
  - eapply Hclean; eassumption.
Qed.

Lemma process_batch_fills all_files batch_size i st w st' w' :
  Forall readable all_files ->
  (forall o s, served o -> reply_of o = Some s -> clean s) ->
  0 < batch_size ->
  length (explanations st) = length all_files ->
  filled (length all_files) i st ->
  process_batch all_files batch_size i st w = (Ret st', w') ->
  filled (length all_files) (i + batch_size) st'.
Proof.
  intros Hread Hclean Hbs Hlen Hfill Hrun.
  pose proof (prepare_length_readable (take batch_size (drop i all_files)) []
                (code_md st)
                (Forall_take _ _ _ (Forall_drop _ _ _ Hread))) as Hbd.
  rewrite length_take, length_drop in Hbd. cbn [length] in Hbd.
  destruct (process_batch_cases all_files batch_size i st w)
    as [[Hnil H] | (_ & res & w1 & Hg & H)].
  - rewrite H in Hrun. injection Hrun as <- _.
    rewrite Hnil in Hbd. cbn [length] in Hbd.
    intros idx Hidx Hn. apply Hfill; lia.
  - destruct res as [exps | exc]; [|congruence].
    destruct H as (w2 & H & _). rewrite H in Hrun. injection Hrun as <- _.
    pose proof (generate_batch_explanations_length _ _ _ _ Hg) as Hle.
    pose proof (generate_batch_explanations_nonempty _ _ _ _ Hclean Hg) as Hne.
    match goal with |- filled _ _ (assign _ _ _ _ ?s1) =>
      destruct (assign_explanations all_files i exps 0 s1 Hlen) as [_ Hlook] end.
    intros idx Hidx Hn. rewrite Hlook. cbn [explanations].
    case_decide as Hd.
    + destruct (lookup_lt_is_Some_2 exps (idx - (i + 0))) as [x Hx]; [lia|].
      exists x. split; [exact Hx|].
      eapply Forall_lookup_1 in Hne; [exact Hne | exact Hx].
    + apply Hfill; lia.
Qed.

Lemma batch_loop_fills all_files batch_size :
  Forall readable all_files ->
  (forall o s, served o -> reply_of o = Some s -> clean s) ->
  0 < batch_size ->
  forall m k st w st' w',
    length (explanations st) = length all_files ->
    filled (length all_files) (k * batch_size) st ->
    batch_loop all_files batch_size (map (fun j => j * batch_size) (seq k m)) st w
      = (Ret st', w') ->
    filled (length all_files) ((k + m) * batch_size) st'.
Proof.
  intros Hread Hclean Hbs m.
  induction m as [|m IH]; intros k st w st' w' Hlen Hfill Hrun.
  - injection Hrun as <- _. now rewrite Nat.add_0_r.
  - cbn [seq map batch_loop] in Hrun. unfold bind in Hrun.
    destruct (process_batch all_files batch_size (k * batch_size) st w)
      as [[st1 | exc] w1] eqn:Hb; [|discriminate].
    replace (k + S m) with (S k + m) by lia.
    eapply IH; [| |exact Hrun].
    + eapply process_batch_length; eassumption.
    + replace (S k * batch_size) with (k * batch_size + batch_size) by lia.
      eapply process_batch_fills; eassumption.
Qed.

Lemma range_step_covers n step : 0 < step -> n <= (n + step - 1) / step * step.
Proof.
  intros Hs.
  pose proof (Nat.div_mod_eq (n + step - 1) step) as Hdm.
  pose proof (Nat.mod_upper_bound (n + step - 1) step ltac:(lia)) as Hm.
  nia.
Qed.

Lemma batch_size_of_pos n : 0 < batch_size_of n.
Proof. unfold batch_size_of. lia. Qed.

(** ** The explanation slots *)

(** C1, as the code has it. When [process_folder] completes on a corpus
    of N files the explanation sequence has exactly N entries.  Every
    entry is non-empty when, in addition, every file of the corpus reads
    as non-empty text and no text that [call_llm] returns for an outcome
    of the service has a numbered line with nothing after its number:
    neither a reply once its characters outside ASCII are removed, nor a
    failure text with the message of its error. *)
Theorem process_folder_slots folder_path w out w' :
  process_folder folder_path w = (Ret out, w') ->
  length (out_explanations out) = length (collect (walk folder_path) 1) /\
  (Forall readable (collect (walk folder_path) 1) ->
   (forall o s, served o -> reply_of o = Some s -> clean s) ->
   Forall (fun explanation => explanation <> []) (out_explanations out)).
Proof.
  intros Hrun. apply process_folder_inv in Hrun. cbv zeta in Hrun.
  destruct Hrun as (st & Hloop & ->). cbn [out_explanations].
  set (all_files := collect (walk folder_path) 1) in *.
  assert (Hlen0 : length (explanations
                     (mkFolderState (replicate (length all_files) [])
                        (lit "# Project Code" ++ [LF; LF])
                        (lit "# Project Explanations" ++ [LF; LF])))
                  = length all_files) by apply length_replicate.
  pose proof (batch_loop_length _ _ _ _ _ _ _ Hloop Hlen0) as Hlen.
  split; [exact Hlen|].
  intros Hread Hclean.
  pose proof (batch_size_of_pos (length all_files)) as Hbs.
  unfold range_step in Hloop.
  eapply batch_loop_fills in Hloop; try eassumption.
  - apply Forall_lookup. intros idx x Hx.
    assert (Hidx : idx < length all_files).
    { rewrite <- Hlen. eapply lookup_lt_Some. exact Hx. }
    destruct (Hloop idx) as (y & Hy & Hne); [|exact Hidx|congruence].
    pose proof (range_step_covers (length all_files)
                  (batch_size_of (length all_files)) Hbs). simpl. lia.
  - intros idx Hidx. lia.
Qed.

(** ** Fatal and absorbed failures *)

Lemma call_llm_rate_limited retries : forall prompt mi w,
  (forall n req, requests w <= n < requests w + retries ->
                 rate_limited (service n req) = true) ->
  exists w',
    call_llm retries prompt mi w = (Ret exhausted_msg, w') /\
    requests w' = requests w + retries.
Proof.
  induction retries as [|r IH]; intros prompt mi w H429.
  - exists w. split; [reflexivity | lia].
  - cbn [call_llm]. rewrite attempts_step. cbv zeta.
    assert (Hc : classify (service (requests w)
                             (mkRequest (model_at mi) (take (Z.to_nat 8000) prompt)))
                 = RateLimited).
    { apply classify_rate_limited. apply H429. lia. }
    rewrite Hc.
    match goal with |- context [call_llm r prompt _ ?w1] =>
      destruct (IH prompt (mi + 1)%Z w1) as (w' & -> & Hr) end.
    + cbn [requests]. intros n req Hn. apply H429. lia.
    + cbn [requests] in Hr. exists w'. split; [reflexivity | lia].
Qed.


(** ** The quiz document is a function of the explanations *)

(** C9. In every completed run the quiz document is
    [generate_simple_quiz] of the run's explanation sequence; the world
    after the run is the world after the batch loop, so producing the quiz
    makes no request; and two runs, from any worlds and folders, that end
    with equal explanation sequences end with identical quiz documents. *)
Theorem generate_simple_quiz_reproducible folder1 folder2 w1 w2 out1 out2 w1' w2' :
  process_folder folder1 w1 = (Ret out1, w1') ->
  process_folder folder2 w2 = (Ret out2, w2') ->
  out_quiz_md out1 = generate_simple_quiz (out_explanations out1) /\
  (exists st,
     batch_loop (collect (walk folder1) 1)
       (batch_size_of (length (collect (walk folder1) 1)))
       (range_step (length (collect (walk folder1) 1))
          (batch_size_of (length (collect (walk folder1) 1))))
       (mkFolderState (replicate (length (collect (walk folder1) 1)) [])
          (lit "# Project Code" ++ [LF; LF])
          (lit "# Project Explanations" ++ [LF; LF])) w1
     = (Ret st, w1')) /\
  (out_explanations out1 = out_explanations out2 ->
   out_quiz_md out1 = out_quiz_md out2).
Proof.
  intros H1 H2.
  apply process_folder_inv in H1, H2. cbv zeta in H1, H2.
  destruct H1 as (st1 & Hl1 & ->), H2 as (st2 & Hl2 & ->).
  cbn [out_quiz_md out_explanations].
  split; [reflexivity|]. split; [exists st1; exact Hl1|].
  intros ->. reflexivity.
Qed.

(** ** Runs that complete *)

Lemma emits_raise retries mi attempt evs res :
  emits retries mi attempt evs res ->
  forall exc, res = Raise exc -> exists o, served o /\ classify o = Crashed exc.
Proof.
  induction 1 as [ | | ? ? ? o ? ? Hs Hc | | | ]; intros x Hres; auto;
    try discriminate.
  injection Hres as <-. exists o. split; assumption.
Qed.

(** [call_llm] returns a text unless the body of a response is malformed. *)
Lemma call_llm_returns retries prompt mi w :
  (forall o exc, served o -> classify o <> Crashed exc) ->
  exists s w', call_llm retries prompt mi w = (Ret s, w').
Proof.
  intros Hok.
  destruct (call_llm_runs retries prompt mi w)
    as (evs & res & w' & Hrun & _ & _ & _ & He).
  destruct res as [s | exc]; [exists s, w'; exact Hrun|].
  destruct (emits_raise _ _ _ _ _ He exc eq_refl) as (o & Hs & Hc).
  exfalso. exact (Hok o exc Hs Hc).
Qed.

Lemma process_batch_returns all_files batch_size i st w :
  (forall o exc, served o -> classify o <> Crashed exc) ->
  exists st' w', process_batch all_files batch_size i st w = (Ret st', w').
Proof.
  intros Hok.
  destruct (process_batch_cases all_files batch_size i st w)
    as [[_ H] | (_ & res & w1 & Hg & H)]; [eexists _, _; exact H|].
  destruct res as [exps | exc].
  - destruct H as (w' & H & _). eexists _, _. exact H.
  - exfalso. revert Hg. unfold generate_batch_explanations, bind.
    match goal with |- context [call_llm ?r ?p ?m w] =>
      destruct (call_llm_returns r p m w Hok) as (s & w2 & ->) end.
    discriminate.
Qed.

Lemma batch_loop_returns all_files batch_size offsets :
  (forall o exc, served o -> classify o <> Crashed exc) ->
  forall st w,
  exists st' w', batch_loop all_files batch_size offsets st w = (Ret st', w').
Proof.
  intros Hok. induction offsets as [|i offsets IH]; intros st w.
  - exists st, w. reflexivity.
  - destruct (process_batch_returns all_files batch_size i st w Hok)
      as (st1 & w1 & Hb).
    destruct (IH st1 w1) as (st' & w' & Hl).
    exists st', w'. cbn [batch_loop]. unfold bind. rewrite Hb. exact Hl.
Qed.

(** [process_folder] completes whenever no response body is malformed and
    one of the two converters succeeds on each text. *)
Lemma process_folder_completes folder_path w :
  (forall o exc, served o -> classify o <> Crashed exc) ->
  (forall md, weasyprint_ok md = true \/ pandoc_failure md = None) ->
  exists out w', process_folder folder_path w = (Ret out, w').
Proof.
  intros Hok Hpdf. unfold process_folder. unfold bind at 1.
  match goal with |- context [batch_loop ?a ?b ?c ?d w] =>
    destruct (batch_loop_returns a b c Hok d w) as (st & w' & ->) end.
  assert (Hsave : forall md w0, save_pdf_from_markdown md w0 = (Ret tt, w0)).
  { intros md w0. unfold save_pdf_from_markdown.
    destruct (Hpdf md) as [-> | Hp]; [reflexivity|].
    rewrite Hp. destruct (weasyprint_ok md); reflexivity. }
  unfold bind. rewrite !Hsave. eexists _, _. reflexivity.
Qed.

(** * Further properties of the code *)

(** ** Texts *)

(** X1. [safe_path] leaves no backslash in a path, keeps its length,
    changes nothing in a path without backslash, and applying it twice
    is applying it once. *)
Theorem safe_path_slashes path :
  ~ In 92%N (safe_path path) /\
  length (safe_path path) = length path /\
  (~ In 92%N path -> safe_path path = path) /\
  safe_path (safe_path path) = safe_path path.
Proof.
  unfold safe_path. split; [|split; [|split]].
  - induction path as [|c path IH]; simpl; [tauto|].
    intros [H | H]; [|exact (IH H)].
    destruct (N.eqb_spec c 92) as [-> | Hc]; [discriminate | congruence].
  - apply length_map.
  - induction path as [|c path IH]; simpl; [reflexivity|].
    intros H. destruct (N.eqb_spec c 92) as [-> | Hc]; [exfalso; auto|].
    f_equal. apply IH. intros Hin. apply H. now right.
  - induction path as [|c path IH]; simpl; [reflexivity|].
    rewrite IH. f_equal.
    destruct (N.eqb_spec c 92) as [-> | Hc]; [reflexivity|].
    destruct (N.eqb_spec c 92); congruence.
Qed.

Lemma remove_unicode_filter text :
  remove_unicode text = ascii_only text /\ skip_run text = ascii_only text.
Proof.
  unfold ascii_only.
  induction text as [|c text [IH1 IH2]]; [split; reflexivity|].
  cbn [remove_unicode skip_run]. rewrite filter_cons.
  destruct (N.leb_spec c 127) as [Hc | Hc].
  - rewrite decide_True by lia. rewrite IH1. split; reflexivity.
  - rewrite decide_False by lia. rewrite IH2. split; reflexivity.
Qed.

Lemma ascii_only_id text :
  Forall (fun c => (c < 128)%N) text -> ascii_only text = text.
Proof.
  unfold ascii_only. induction 1 as [|c text Hc _ IH]; [reflexivity|].
  rewrite filter_cons, decide_True by exact Hc. now rewrite IH.
Qed.

Lemma ascii_only_ascii text : Forall (fun c => (c < 128)%N) (ascii_only text).
Proof.
  unfold ascii_only. apply Forall_forall. intros c Hc.
  apply list_elem_of_filter in Hc. apply Hc.
Qed.

(** X2. [remove_unicode] of the report keeps exactly the characters up to
    U+007F, in order: it is the same filter as the
    [encode('ascii', errors='ignore').decode('ascii')] of [call_llm]; its
    result has no other character and removing again changes nothing. *)
Theorem remove_unicode_ascii text :
  remove_unicode text = ascii_only text /\
  Forall (fun c => (c < 128)%N) (remove_unicode text) /\
  remove_unicode (remove_unicode text) = remove_unicode text.
Proof.
  destruct (remove_unicode_filter text) as [H _].
  split; [exact H|]. split; [rewrite H; apply ascii_only_ascii|].
  destruct (remove_unicode_filter (remove_unicode text)) as [-> _].
  rewrite H. apply ascii_only_id, ascii_only_ascii.
Qed.

(** ** The parser, further *)

Lemma dropwhile_head p s c t : dropwhile p s = c :: t -> p c = false.
Proof.
  induction s as [|x s IH]; simpl; [discriminate|].
  destruct (p x) eqn:E; [exact IH|]. intros [= <- _]. exact E.
Qed.

Lemma dropwhile_suffix p s : dropwhile p s `suffix_of` s.
Proof.
  induction s as [|x s IH]; simpl; [reflexivity|].
  destruct (p x); [|reflexivity]. now apply suffix_cons_r.
Qed.

Lemma dropwhile_fixed p s :
  match s with [] => True | c :: _ => p c = false end -> dropwhile p s = s.
Proof. destruct s as [|c s]; simpl; [reflexivity|]. now intros ->. Qed.

Lemma no_lead_dropwhile s : no_lead (dropwhile isspace s).
Proof.
  unfold no_lead. destruct (dropwhile isspace s) as [|c t] eqn:E; [exact I|].
  eapply dropwhile_head. exact E.
Qed.

Lemma no_trail_suffix x s : x `suffix_of` s -> no_trail s -> no_trail x.
Proof.
  intros [k ->]. unfold no_trail. rewrite reverse_app.
  destruct (reverse x) as [|c t]; simpl; [intros _; exact I | auto].
Qed.

Lemma no_trail_rstrip s : no_trail (rstrip s).
Proof.
  unfold no_trail, rstrip. rewrite reverse_involutive. apply no_lead_dropwhile.
Qed.

Lemma strip_fixed s : no_lead s -> no_trail s -> strip s = s.
Proof.
  intros Hl Ht. unfold strip, lstrip, rstrip.
  rewrite (dropwhile_fixed isspace (reverse s)) by exact Ht.
  rewrite reverse_involutive. apply dropwhile_fixed. exact Hl.
Qed.

Lemma strip_trimmed s : no_lead (strip s) /\ no_trail (strip s).
Proof.
  split; [apply no_lead_dropwhile|].
  eapply no_trail_suffix; [apply dropwhile_suffix | apply no_trail_rstrip].
Qed.

Lemma re_sub_numbered_trimmed s :
  no_lead s -> no_trail s ->
  no_lead (re_sub_numbered s) /\ no_trail (re_sub_numbered s).
Proof.
  intros Hl Ht. unfold re_sub_numbered.
  destruct (re_match_numbered s); [|split; assumption].
  split; [apply no_lead_dropwhile|].
  eapply no_trail_suffix; [|exact Ht].
  etransitivity; [apply dropwhile_suffix|].
  etransitivity; [|apply (dropwhile_suffix isdecimal s)].
  destruct (dropwhile isdecimal s) as [|c t]; simpl; [reflexivity|].
  now apply suffix_cons_r.
Qed.

Lemma uint_chars_digits u :
  Forall (fun c => (48 <= c <= 57)%N) (uint_chars u).
Proof. induction u; simpl; constructor; auto; lia. Qed.

Lemma str_of_nat_nonempty n : str_of_nat n <> [].
Proof.
  unfold str_of_nat.
  assert (H : Nat.to_uint n <> Decimal.Nil).
  { rewrite <- (DecimalNat.Unsigned.of_to n) at 1.
    rewrite DecimalNat.Unsigned.to_of. apply DecimalFacts.unorm_nonnil. }
  destruct (Nat.to_uint n); try discriminate. congruence.
Qed.

Lemma digit_not_space c : (48 <= c <= 57)%N -> isspace c = false.
Proof.
  intros Hc. unfold isspace, ascii_isspace.
  replace (c <? 128)%N with true by (symmetry; apply N.ltb_lt; lia).
  replace (c <=? 13)%N with false by (symmetry; apply N.leb_gt; lia).
  replace (c <=? 32)%N with false by (symmetry; apply N.leb_gt; lia).
  now rewrite !andb_false_r.
Qed.

Lemma placeholder_trimmed i : no_lead (placeholder i) /\ no_trail (placeholder i).
Proof.
  unfold placeholder. split; [reflexivity|].
  unfold no_trail. rewrite reverse_app.
  pose proof (uint_chars_digits (Nat.to_uint (i + 1))) as Hd.
  pose proof (str_of_nat_nonempty (i + 1)) as Hne.
  unfold str_of_nat in *.
  apply Forall_reverse in Hd.
  destruct (reverse (uint_chars (Nat.to_uint (i + 1)))) as [|c t] eqn:E.
  - exfalso. apply Hne. apply (f_equal reverse) in E.
    now rewrite reverse_involutive in E.
  - simpl. inversion Hd; subst. now apply digit_not_space.
Qed.

(** X3. Every string that [parse_batch_response] returns is trimmed: it
    neither begins nor ends with whitespace, whatever the response and the
    expected count ([strip] leaves it unchanged). *)
Theorem parse_batch_response_trimmed response expected_count :
  Forall (fun explanation => strip explanation = explanation)
    (parse_batch_response response expected_count).
Proof.
  destruct (parse_batch_response_cases response expected_count)
    as [[_ ->] | [_ ->]].
  - rewrite scan_lines_matched. apply Forall_forall. intros x Hx.
    apply list_elem_of_fmap in Hx. destruct Hx as (line & -> & _).
    destruct (strip_trimmed line) as [Hl Ht].
    destruct (re_sub_numbered_trimmed _ Hl Ht). now apply strip_fixed.
  - apply Forall_forall. intros x Hx.
    apply list_elem_of_fmap in Hx. destruct Hx as (i & -> & _).
    destruct (placeholder_trimmed i). now apply strip_fixed.
Qed.

Lemma split_Forall (P : N -> Prop) sep s :
  Forall P s -> Forall (Forall P) (split sep s).
Proof.
  induction 1 as [|c s Hc _ IH]; simpl; [repeat constructor|].
  destruct (c =? sep)%N; [constructor; [constructor | exact IH]|].
  destruct (split sep s) as [|l ls]; [repeat constructor; exact Hc|].
  inversion IH; subst. constructor; [constructor|]; assumption.
Qed.

Lemma dropwhile_Forall (P : N -> Prop) p s : Forall P s -> Forall P (dropwhile p s).
Proof.
  intros H. destruct (dropwhile_suffix p s) as [k Hk].
  rewrite Hk in H. apply Forall_app in H. apply H.
Qed.

Lemma strip_Forall (P : N -> Prop) s : Forall P s -> Forall P (strip s).
Proof.
  intros H. unfold strip, lstrip, rstrip.
  apply dropwhile_Forall, Forall_reverse, dropwhile_Forall, Forall_reverse, H.
Qed.

Lemma re_match_numbered_no_digit s :
  Forall (fun c => isdecimal c = false) s -> re_match_numbered s = false.
Proof.
  intros H. unfold re_match_numbered.
  destruct H as [|c s Hc _]; simpl; [reflexivity|]. now rewrite Hc.
Qed.

(** X4. A response without any decimal digit never aligns: the parser
    returns the placeholders, "Code file 1" to "Code file n" (nothing for
    a count of 0 or less). *)
Theorem parse_batch_response_prose response expected_count :
  Forall (fun c => isdecimal c = false) response ->
  parse_batch_response response expected_count
  = map placeholder (range expected_count).
Proof.
  intros H.
  assert (Hscan : scan_lines (split LF response) = []).
  { pose proof (split_Forall _ LF response H) as Hl.
    induction Hl as [|line lines Hline _ IH]; simpl; [reflexivity|].
    rewrite re_match_numbered_no_digit by (apply strip_Forall; exact Hline).
    exact IH. }
  unfold parse_batch_response. rewrite Hscan.
  destruct expected_count; reflexivity.
Qed.

(** ** The completion client, further *)

Lemma budget_bound_closed retries : 2 * budget_bound retries = retries * (retries + 1).
Proof. induction retries as [|r IH]; simpl; lia. Qed.

Lemma emits_first retries mi attempt evs res :
  emits retries mi attempt evs res -> attempt < retries -> 1 <= length (posts evs).
Proof. induction 1; simpl; lia. Qed.

(** X5. One call of [call_llm] makes one request per attempt, at least
    one when the budget is positive, and never more than
    [retries * (retries + 1) / 2] of them: 6 with the default budget of 3.
    With a budget of 0 it returns the text of exhaustion without any
    request. *)
Theorem call_llm_request_budget retries prompt mi w :
  requests (snd (call_llm retries prompt mi w))
  = requests w + length (posts (emitted w (snd (call_llm retries prompt mi w)))) /\
  length (posts (emitted w (snd (call_llm retries prompt mi w))))
  <= budget_bound retries /\
  2 * budget_bound retries = retries * (retries + 1) /\
  budget_bound DEFAULT_RETRIES = 6 /\
  (0 < retries ->
   1 <= length (posts (emitted w (snd (call_llm retries prompt mi w))))) /\
  call_llm 0 prompt mi w = (Ret exhausted_msg, w).
Proof.
  destruct (call_llm_runs retries prompt mi w)
    as (evs & res & w' & -> & Ht & Hr & _ & He).
  cbn [snd]. rewrite (emitted_app _ _ _ Ht).
  split; [exact Hr|]. split.
  - pose proof (emits_bound _ _ _ _ _ He) as Hb.
    destruct retries; simpl in *; [lia|]. rewrite Nat.sub_0_r in Hb. lia.
  - split; [apply budget_bound_closed|]. split; [reflexivity|].
    split; [|reflexivity]. intros Hpos. eapply emits_first; eassumption.
Qed.

Lemma failure_msg_marked e : startswith (failure_msg e) WARNING = true.
Proof. reflexivity. Qed.

Lemma ascii_not_marked s :
  Forall (fun c => (c < 128)%N) s -> startswith s WARNING = false.
Proof.
  intros [|c t Hc _]; [reflexivity|].
  change (startswith (c :: t) WARNING)
    with ((9888 =? c)%N && startswith t [65039%N]).
  destruct (N.eqb_spec 9888 c) as [<- | _]; [lia | reflexivity].
Qed.

(** X6. With a budget up to the default one, what [call_llm] returns is
    either a text that begins with the warning marker (exhaustion or a
    request error) or the text of a successful response with every
    character outside ASCII removed, which never begins with the marker.
    It raises only the exception of a response whose body is malformed. *)
Theorem call_llm_result_shape retries prompt mi w :
  retries <= DEFAULT_RETRIES ->
  match fst (call_llm retries prompt mi w) with
  | Ret s =>
      startswith s WARNING = true \/
      (exists o text,
         served o /\ classify o = Succeeded text /\ s = ascii_only text /\
         Forall (fun c => (c < 128)%N) s /\ startswith s WARNING = false)
  | Raise exc => exists o, served o /\ classify o = Crashed exc
  end.
Proof.
  intros _.
  destruct (call_llm_runs retries prompt mi w)
    as (evs & res & w' & -> & _ & _ & _ & He).
  cbn [fst]. destruct res as [s | exc].
  - destruct (emits_result _ _ _ _ _ He s eq_refl) as [-> | (o & Hs & Hr)];
      [left; reflexivity|].
    unfold reply_of in Hr. destruct (classify o) as [| e | text |] eqn:Hc;
      try discriminate; injection Hr as <-.
    + left. apply failure_msg_marked.
    + right. exists o, text. repeat split; auto.
      * apply ascii_only_ascii.
      * apply ascii_not_marked, ascii_only_ascii.
  - eapply emits_raise; [exact He | reflexivity].
Qed.

(** The loop of [call_llm] through [j] request errors that are not on the
    last iteration. *)
Lemma attempts_skip_errors recurse mi content retries (errs : nat -> str) j :
  forall k attempt w,
    attempt + j < retries ->
    (forall i req, i < j ->
       classify (service (requests w + i) req) = Failed (errs (attempt + i))) ->
    exists w',
      attempts recurse mi content retries (j + k) attempt w
      = attempts recurse mi content retries k (attempt + j) w' /\
      requests w' = requests w + j /\
      exists evs,
        trace w' = trace w ++ evs /\ length (posts evs) = j /\
        Forall (fun a => att_model_index a = mi) (posts evs).
Proof.
  induction j as [|j IH]; intros k attempt w Hlt Herr.
  - exists w. rewrite !Nat.add_0_r. split; [reflexivity|]. split; [reflexivity|].
    exists []. rewrite app_nil_r. repeat split; constructor.
  - cbn [Nat.add]. rewrite attempts_step. cbv zeta.
    specialize (Herr 0) as H0. rewrite !Nat.add_0_r in H0.
    rewrite (H0 _ ltac:(lia)).
    destruct (Nat.eqb_spec attempt (retries - 1)) as [E | _]; [lia|].
    match goal with |- context [attempts _ _ _ _ _ _ ?w1] =>
      destruct (IH k (S attempt) w1) as (w' & Heq & Hreq & evs & Ht & Hlen & Hall) end.
    + lia.
    + intros i req Hi. cbn [requests].
      replace (S (requests w) + i) with (requests w + S i) by lia.
      replace (S attempt + i) with (attempt + S i) by lia.
      apply Herr. lia.
    + exists w'. replace (attempt + S j) with (S attempt + j) by lia.
      split; [exact Heq|]. cbn [requests] in Hreq. split; [lia|].
      cbn [trace] in Ht. eexists (_ :: _ :: evs).
      split; [rewrite Ht, <- !app_assoc; reflexivity|].
      split; [simpl; lia|]. simpl. constructor; [reflexivity | exact Hall].
Qed.

(** X7. With a budget up to the default one: when every attempt of a call
    ends in a request error (a time-out, a connection error, an HTTP error
    status other than 429), [call_llm] makes exactly [retries] requests,
    all with the model it started with, and returns the failure text that
    carries the last error. *)
Theorem call_llm_persistent_errors retries prompt mi w (errs : nat -> str) :
  0 < retries <= DEFAULT_RETRIES ->
  (forall i req, i < retries ->
     classify (service (requests w + i) req) = Failed (errs i)) ->
  exists w' evs,
    call_llm retries prompt mi w = (Ret (failure_msg (errs (retries - 1))), w') /\
    requests w' = requests w + retries /\
    trace w' = trace w ++ evs /\
    length (posts evs) = retries /\
    Forall (fun a => att_model_index a = mi) (posts evs).
Proof.
  intros [Hpos _] Herr. destruct retries as [|r]; [lia|]. clear Hpos.
  cbn [call_llm].
  destruct (attempts_skip_errors (call_llm r prompt (mi + 1)) mi
              (take (Z.to_nat 8000) prompt) (S r) errs r 1 0 w)
    as (w1 & Heq & Hreq & evs & Ht & Hlen & Hall); [lia| |].
  { intros i req Hi. apply Herr. lia. }
  replace (attempts (call_llm r prompt (mi + 1)) mi (take (Z.to_nat 8000) prompt)
             (S r) (S r) 0 w)
    with (attempts (call_llm r prompt (mi + 1)) mi (take (Z.to_nat 8000) prompt)
            (S r) (r + 1) 0 w) by (f_equal; lia).
  rewrite Heq. rewrite attempts_step. cbv zeta. cbn [Nat.add]. rewrite Hreq.
  rewrite (Herr r) by lia.
  replace (r =? S r - 1) with true by (symmetry; apply Nat.eqb_eq; lia).
  eexists _, (evs ++ [_]). split; [simpl; rewrite Nat.sub_0_r; reflexivity|].
  cbn [requests trace]. split; [lia|].
  split; [rewrite Ht, <- app_assoc; reflexivity|].
  rewrite posts_app. simpl. rewrite length_app. simpl.
  split; [lia|]. apply Forall_app. split; [exact Hall|]. repeat constructor.
Qed.

(** X8. With a budget up to the default one: when the first [k] attempts
    of a call end in request errors and the next response is a success,
    with [k] below the budget, [call_llm] returns the text of that response
    without its characters outside ASCII, after exactly [k + 1] requests,
    all with the model it started with. *)
Theorem call_llm_recovers retries prompt mi w (errs : nat -> str) k text :
  k < retries <= DEFAULT_RETRIES ->
  (forall i req, i < k ->
     classify (service (requests w + i) req) = Failed (errs i)) ->
  (forall req, classify (service (requests w + k) req) = Succeeded text) ->
  exists w' evs,
    call_llm retries prompt mi w = (Ret (ascii_only text), w') /\
    requests w' = requests w + k + 1 /\
    trace w' = trace w ++ evs /\
    length (posts evs) = k + 1 /\
    Forall (fun a => att_model_index a = mi) (posts evs).
Proof.
  intros [Hk _] Herr Hok. destruct retries as [|r]; [lia|].
  cbn [call_llm].
  destruct (attempts_skip_errors (call_llm r prompt (mi + 1)) mi
              (take (Z.to_nat 8000) prompt) (S r) errs k (S r - k) 0 w)
    as (w1 & Heq & Hreq & evs & Ht & Hlen & Hall); [lia | exact Herr |].
  replace (attempts (call_llm r prompt (mi + 1)) mi (take (Z.to_nat 8000) prompt)
             (S r) (S r) 0 w)
    with (attempts (call_llm r prompt (mi + 1)) mi (take (Z.to_nat 8000) prompt)
            (S r) (k + (S r - k)) 0 w) by (f_equal; lia).
  rewrite Heq.
  destruct (S r - k) as [|k'] eqn:Ek; [lia|].
  rewrite attempts_step. cbv zeta. rewrite Hreq, Hok.
  eexists _, (evs ++ [_]). split; [reflexivity|].
  cbn [requests trace]. split; [lia|].
  split; [rewrite Ht, <- app_assoc; reflexivity|].
  rewrite posts_app. simpl. rewrite length_app. simpl.
  split; [lia|]. apply Forall_app. split; [exact Hall|]. repeat constructor.
Qed.

Ltac literal_waits :=
  repeat match goal with
         | |- context [inject_Z ?z] =>
             let v := eval vm_compute in (inject_Z z) in
             change (inject_Z z) with v
         end.

Lemma error_wait_range attempt u :
  (0 <= u <= 1)%Q -> attempt <= 1 ->
  (1 <= error_wait attempt (uniform_of 0 3 u))%Q /\
  (error_wait attempt (uniform_of 0 3 u) <= inject_Z (2 ^ Z.of_nat attempt) + 3)%Q.
Proof.
  intros Hu Ha. unfold error_wait, uniform_of.
  destruct attempt as [|[|a]]; [| |lia]; literal_waits; split; lra.
Qed.

Lemma rate_limit_wait_range attempt u :
  (0 <= u <= 1)%Q -> attempt <= 2 ->
  (1 <= rate_limit_wait attempt (uniform_of 0 5 u))%Q /\
  (rate_limit_wait attempt (uniform_of 0 5 u)
   <= inject_Z (2 ^ Z.of_nat attempt * 5) + 5)%Q.
Proof.
  intros Hu Ha. unfold rate_limit_wait, uniform_of.
  destruct attempt as [|[|[|a]]]; [| | |lia]; literal_waits;
    (split; [apply Q.min_glb; lra | eapply Qle_trans; [apply Q.le_min_r | lra]]).
Qed.

Lemma wait_table_nonneg retries attempt : (0 <= wait_table retries attempt)%Q.
Proof.
  unfold wait_table.
  destruct retries as [|[|[|[|r]]]]; try (apply Qle_refl);
    destruct attempt as [|[|[|a]]]; try (apply Qle_refl); discriminate.
Qed.

Lemma emits_waits retries mi attempt evs res :
  emits retries mi attempt evs res ->
  (forall n, (0 <= random n <= 1)%Q) -> retries <= 3 ->
  Forall (fun d => (1 <= d <= 25)%Q) (sleeps evs) /\
  length (sleeps evs) <= length (posts evs) /\
  (total_sleep evs <= wait_table retries attempt)%Q.
Proof.
  intros He Hrnd.
  induction He as [ | | | | retries mi attempt o e n rest res Hlt _ _ _ IH
                   | retries mi attempt o n rest res Hlt _ _ _ IH];
    intros Hr;
    try (split; [constructor | split; [simpl; lia | apply wait_table_nonneg]]).
  - destruct (IH Hr) as (Hall & Hlen & Htot).
    destruct (error_wait_range attempt (random n) (Hrnd n) ltac:(lia)) as [Hlo Hhi].
    split; [|split; [simpl; lia|]].
    + simpl. constructor; [|exact Hall]. split; [exact Hlo|].
      eapply Qle_trans; [exact Hhi|].
      destruct attempt as [|[|a]]; [| |lia]; literal_waits; lra.
    + unfold total_sleep in *. cbn [sleeps fold_right].
      assert (Hcases : (retries = 2 /\ attempt = 0) \/ (retries = 3 /\ attempt = 0)
                       \/ (retries = 3 /\ attempt = 1)) by lia.
      destruct Hcases as [[-> ->] | [[-> ->] | [-> ->]]];
        cbn [wait_table] in *; revert Hhi; literal_waits; intros Hhi; lra.
  - destruct (IH ltac:(lia)) as (Hall & Hlen & Htot).
    destruct (rate_limit_wait_range attempt (random n) (Hrnd n) ltac:(lia))
      as [Hlo Hhi].
    split; [|split; [simpl; lia|]].
    + simpl. constructor; [|exact Hall]. split; [exact Hlo|].
      eapply Qle_trans; [exact Hhi|].
      destruct attempt as [|[|[|a]]]; [| | |lia]; literal_waits; lra.
    + unfold total_sleep in *. cbn [sleeps fold_right].
      assert (Hcases : (retries = 1 /\ attempt = 0) \/ (retries = 2 /\ attempt = 0)
                       \/ (retries = 2 /\ attempt = 1) \/ (retries = 3 /\ attempt = 0)
                       \/ (retries = 3 /\ attempt = 1) \/ (retries = 3 /\ attempt = 2))
        by lia.
      destruct Hcases as [[-> ->] | [[-> ->] | [[-> ->] | [[-> ->] | [[-> ->] | [-> ->]]]]]];
        cbn [wait_table Nat.sub] in *; revert Hhi; literal_waits; intros Hhi; lra.
Qed.

(** X9. With draws of the unit interval, a call with the default budget
    sleeps at most once per attempt, each time between 1 and 25 seconds,
    and at most 63 seconds in total. *)
Theorem call_llm_waits prompt mi w :
  (forall n, (0 <= random n <= 1)%Q) ->
  Forall (fun d => (1 <= d <= 25)%Q)
    (sleeps (emitted w (snd (call_llm DEFAULT_RETRIES prompt mi w)))) /\
  length (sleeps (emitted w (snd (call_llm DEFAULT_RETRIES prompt mi w))))
  <= length (posts (emitted w (snd (call_llm DEFAULT_RETRIES prompt mi w)))) /\
  (total_sleep (emitted w (snd (call_llm DEFAULT_RETRIES prompt mi w))) <= 63)%Q.
Proof.
  intros Hrnd.
  destruct (call_llm_runs DEFAULT_RETRIES prompt mi w)
    as (evs & res & w' & -> & Ht & _ & _ & He).
  cbn [snd]. rewrite (emitted_app _ _ _ Ht).
  apply (emits_waits _ _ _ _ _ He Hrnd). unfold DEFAULT_RETRIES. lia.
Qed.

(** The first attempt of a run of the loop carries its counters. *)
Lemma emits_head retries mi attempt evs res :
  emits retries mi attempt evs res ->
  forall b, evs !! 0 = Some (EvPost b) ->
  att_number b = attempt /\ att_retries b = retries.
Proof.
  destruct 1; intros b Hb; try discriminate; injection Hb as <-;
    split; reflexivity.
Qed.

Lemma emits_restart retries mi attempt evs res :
  emits retries mi attempt evs res ->
  forall i a b,
    evs !! i = Some (EvPost a) -> evs !! S (S i) = Some (EvPost b) ->
    if rate_limited (att_outcome a)
    then att_number b = 0 /\ att_retries b = att_retries a - 1
    else att_number b = S (att_number a) /\ att_retries b = att_retries a.
Proof.
  induction 1 as [ | | | | ? ? ? o e n rest ? ? ? Hc Hrest IH
                 | ? ? ? o n rest ? ? ? Hc Hrest IH];
    intros i a b Ha Hb;
    try (destruct i as [|[|i]]; discriminate).
  - destruct i as [|[|i]].
    + injection Ha as <-. cbn [att_outcome att_number att_retries].
      rewrite (failed_not_rate_limited o e Hc).
      exact (emits_head _ _ _ _ _ Hrest b Hb).
    + discriminate.
    + exact (IH i a b Ha Hb).
  - destruct i as [|[|i]].
    + injection Ha as <-. cbn [att_outcome att_number att_retries].
      rewrite (proj1 (classify_rate_limited o) Hc).
      exact (emits_head _ _ _ _ _ Hrest b Hb).
    + discriminate.
    + exact (IH i a b Ha Hb).
Qed.

(** X22. Within one call with a budget up to the default one, the attempt
    that follows a rate-limited attempt is numbered 0 again and belongs to
    an invocation whose budget is one less; after any other attempt the
    number goes up by one within the same invocation.  So a rate limit
    that follows a rate limit is slept on as a first attempt: with draws
    of the unit interval between 5 and 10 seconds, however many rate
    limits came before. *)
Theorem call_llm_counter_restarts retries prompt mi w i a b :
  retries <= DEFAULT_RETRIES ->
  (forall n, (0 <= random n <= 1)%Q) ->
  let evs := emitted w (snd (call_llm retries prompt mi w)) in
  evs !! i = Some (EvPost a) -> evs !! S (S i) = Some (EvPost b) ->
  (rate_limited (att_outcome a) = true ->
   att_number b = 0 /\ att_retries b = att_retries a - 1 /\
   (rate_limited (att_outcome b) = true ->
    exists seconds,
      evs !! S (S (S i)) = Some (EvSleep seconds) /\ (5 <= seconds <= 10)%Q)) /\
  (rate_limited (att_outcome a) = false ->
   att_number b = S (att_number a) /\ att_retries b = att_retries a).
Proof.
  intros _ Hdraw evs Ha Hb. subst evs.
  destruct (call_llm_runs retries prompt mi w)
    as (evs & res & w' & Hrun & Ht & _ & _ & He).
  rewrite Hrun in Ha, Hb |- *. cbn [snd] in Ha, Hb |- *.
  rewrite (emitted_app _ _ _ Ht) in Ha, Hb |- *.
  pose proof (emits_restart _ _ _ _ _ He i a b Ha Hb) as Hstep.
  split; intros Hrl; rewrite Hrl in Hstep; [|exact Hstep].
  destruct Hstep as [Hnum Hret]. split; [exact Hnum|]. split; [exact Hret|].
  intros Hrl'.
  destruct (emits_backoff _ _ _ _ _ He (S (S i)) b Hb Hrl') as [n Hn].
  rewrite Hnum in Hn. eexists. split; [exact Hn|].
  specialize (Hdraw n). unfold rate_limit_wait, uniform_of. literal_waits.
  split; [apply Q.min_glb; lra | eapply Qle_trans; [apply Q.le_min_r | lra]].
Qed.

(** ** The orchestrator, further *)

Lemma batches_concat (all_files : list entry) batch_size m : forall k,
  concat (map (fun j => batch_at all_files batch_size (j * batch_size)) (seq k m))
  = take (m * batch_size) (drop (k * batch_size) all_files).
Proof.
  unfold batch_at. induction m as [|m IH]; intros k; [reflexivity|].
  cbn [seq map concat]. rewrite IH.
  replace (S k * batch_size) with (k * batch_size + batch_size) by lia.
  rewrite <- drop_drop. rewrite take_take_drop. f_equal; lia.
Qed.

Lemma range_step_below n step i :
  0 < step -> In i (range_step n step) -> i < n.
Proof.
  intros Hs Hi. unfold range_step in Hi. apply in_map_iff in Hi.
  destruct Hi as (k & <- & Hk). apply in_seq in Hk.
  pose proof (Nat.div_mod_eq (n + step - 1) step) as Hdm.
  pose proof (Nat.mod_upper_bound (n + step - 1) step ltac:(lia)) as Hm.
  nia.
Qed.

Lemma batches_all (all_files : list entry) batch_size :
  0 < batch_size ->
  concat (map (batch_at all_files batch_size)
            (range_step (length all_files) batch_size)) = all_files.
Proof.
  intros Hpos. unfold range_step. rewrite map_map.
  rewrite (batches_concat all_files batch_size _ 0).
  simpl. apply take_ge. apply range_step_covers. exact Hpos.
Qed.

(** X10. The batches of [process_folder] cut the corpus into consecutive
    pieces: put end to end, in loop order, they give back the corpus, so
    every file is in exactly one batch; the batch size is 2 below 30
    files, 3 from 30 to 39 files and 4 from 40 files on, and every batch
    holds between 1 and [batch_size] files. *)
Theorem batches_cover (all_files : list entry) :
  let batch_size := batch_size_of (length all_files) in
  concat (map (batch_at all_files batch_size)
            (range_step (length all_files) batch_size)) = all_files /\
  2 <= batch_size <= 4 /\
  (batch_size = 2 <-> length all_files < 30) /\
  (batch_size = 4 <-> 40 <= length all_files) /\
  Forall (fun i => 1 <= length (batch_at all_files batch_size i) <= batch_size)
    (range_step (length all_files) batch_size).
Proof.
  cbv zeta. pose proof (batch_size_of_pos (length all_files)) as Hpos.
  split; [|split; [|split; [|split]]].
  - apply batches_all. exact Hpos.
  - unfold batch_size_of. lia.
  - unfold batch_size_of.
    pose proof (Nat.div_mod_eq (length all_files) 10).
    pose proof (Nat.mod_upper_bound (length all_files) 10 ltac:(lia)). lia.
  - unfold batch_size_of.
    pose proof (Nat.div_mod_eq (length all_files) 10).
    pose proof (Nat.mod_upper_bound (length all_files) 10 ltac:(lia)). lia.
  - apply Forall_forall. intros i Hi. apply list_elem_of_In in Hi.
    apply range_step_below in Hi; [|exact Hpos].
    unfold batch_at. rewrite length_take, length_drop. lia.
Qed.

Lemma generate_batch_explanations_requests file_batch w :
  requests w <= requests (snd (generate_batch_explanations file_batch w))
  <= requests w + budget_bound DEFAULT_RETRIES.
Proof.
  destruct (generate_batch_explanations_runs file_batch w)
    as (evs & res & w' & _ & _ & Hr & He & ->).
  cbn [snd]. apply emits_bound in He. simpl in *. lia.
Qed.

Lemma process_batch_requests all_files batch_size i st w :
  requests w <= requests (snd (process_batch all_files batch_size i st w))
  <= requests w + budget_bound DEFAULT_RETRIES.
Proof.
  destruct (process_batch_cases all_files batch_size i st w)
    as [[_ ->] | (_ & res & w1 & Hg & H)]; [simpl; lia|].
  pose proof (generate_batch_explanations_requests
                (fst (prepare (take batch_size (drop i all_files)) [] (code_md st))) w)
    as Hb.
  rewrite Hg in Hb. cbn [snd] in Hb.
  destruct res as [exps | exc].
  - destruct H as (w' & -> & Hr & _). cbn [snd]. lia.
  - rewrite H. cbn [snd]. exact Hb.
Qed.

Lemma batch_loop_requests all_files batch_size offsets : forall st w,
  requests w <= requests (snd (batch_loop all_files batch_size offsets st w))
  <= requests w + budget_bound DEFAULT_RETRIES * length offsets.
Proof.
  induction offsets as [|i offsets IH]; intros st w; [simpl; lia|].
  cbn [batch_loop]. unfold bind.
  pose proof (process_batch_requests all_files batch_size i st w) as Hb.
  destruct (process_batch all_files batch_size i st w) as [[st1 | exc] w1];
    cbn [snd] in Hb |- *.
  - specialize (IH st1 w1). cbn [length]. lia.
  - cbn [length]. lia.
Qed.

Lemma process_folder_world folder_path w :
  snd (process_folder folder_path w)
  = snd (batch_loop (collect (walk folder_path) 1)
           (batch_size_of (length (collect (walk folder_path) 1)))
           (range_step (length (collect (walk folder_path) 1))
              (batch_size_of (length (collect (walk folder_path) 1))))
           (mkFolderState (replicate (length (collect (walk folder_path) 1)) [])
              (lit "# Project Code" ++ [LF; LF])
              (lit "# Project Explanations" ++ [LF; LF])) w).
Proof.
  unfold process_folder. unfold bind at 1.
  match goal with |- context [batch_loop ?a ?b ?c ?d w] =>
    destruct (batch_loop a b c d w) as [[st | exc] w1] end; [|reflexivity].
  unfold bind, save_pdf_from_markdown, ret, raise. cbn [snd].
  repeat match goal with
         | |- context [if ?c then _ else _] => destruct c
         | |- context [match pandoc_failure ?m with _ => _ end] =>
             destruct (pandoc_failure m)
         end; reflexivity.
Qed.

(** X11. A run of [process_folder] over a corpus of N files, whether it
    completes or raises, makes at most 6 completion requests per batch,
    hence at most [6 * ceil(N / batch_size)] and at most [3 * (N + 1)]
    requests; converting the documents and building the quiz make none. *)
Theorem process_folder_request_bound folder_path w :
  let n := length (collect (walk folder_path) 1) in
  requests (snd (process_folder folder_path w))
  <= requests w + 6 * ((n + batch_size_of n - 1) / batch_size_of n) /\
  requests (snd (process_folder folder_path w)) <= requests w + 3 * (n + 1).
Proof.
  cbv zeta. rewrite process_folder_world.
  set (n := length (collect (walk folder_path) 1)).
  match goal with |- context [batch_loop ?a ?b ?c ?d w] =>
    pose proof (batch_loop_requests a b c d w) as Hb end.
  assert (Hlen : length (range_step n (batch_size_of n))
                 = (n + batch_size_of n - 1) / batch_size_of n).
  { unfold range_step. now rewrite length_map, length_seq. }
  rewrite Hlen in Hb. change (budget_bound DEFAULT_RETRIES) with 6 in Hb.
  split; [lia|].
  assert (Hbs : 2 <= batch_size_of n) by (unfold batch_size_of; lia).
  assert (Hdiv : (n + batch_size_of n - 1) / batch_size_of n <= (n + 1) / 2).
  { pose proof (Nat.div_mod_eq (n + batch_size_of n - 1) (batch_size_of n)) as H1.
    pose proof (Nat.mod_upper_bound (n + batch_size_of n - 1) (batch_size_of n)
                  ltac:(lia)) as H2.
    pose proof (Nat.div_mod_eq (n + 1) 2) as H3.
    pose proof (Nat.mod_upper_bound (n + 1) 2 ltac:(lia)) as H4.
    nia. }
  pose proof (Nat.div_mod_eq (n + 1) 2) as H3. lia.
Qed.

(** X12. One iteration of the batch loop that completes on a batch with
    readable files hands these files to [generate_batch_explanations] and
    writes the list it returns, item by item and in its order, into the
    first slots of the batch, as many as the batch has readable files;
    every other slot keeps its content, and the iteration makes no request
    besides those of that call. A batch without readable file changes no
    slot and leaves the world as it was: no request, no pause. *)
Theorem process_batch_writes all_files batch_size i st w st' w' :
  length (explanations st) = length all_files ->
  process_batch all_files batch_size i st w = (Ret st', w') ->
  let batch_data := fst (prepare (batch_at all_files batch_size i) [] (code_md st)) in
  length batch_data <= length (batch_at all_files batch_size i) /\
  (batch_data = [] -> w' = w /\ explanations st' = explanations st) /\
  (batch_data <> [] ->
   exists batch_explanations w1,
     generate_batch_explanations batch_data w = (Ret batch_explanations, w1) /\
     requests w' = requests w1 /\
     length batch_explanations = length batch_data /\
     forall idx,
       explanations st' !! idx
       = if decide (i <= idx < i + length batch_data /\ idx < length all_files)
         then batch_explanations !! (idx - i)
         else explanations st !! idx).
Proof.
  intros Hlen Hrun. cbv zeta. unfold batch_at.
  split; [apply (prepare_length _ [] (code_md st))|].
  destruct (process_batch_cases all_files batch_size i st w)
    as [[Hnil H] | (Hne & res & w1 & Hg & H)].
  - rewrite H in Hrun. injection Hrun as <- <-. rewrite Hnil.
    split; [intros _; split; reflexivity|]. intros E. contradiction.
  - split; [intros E; contradiction|]. intros _.
    destruct res as [exps | exc]; [|congruence].
    destruct H as (w2 & H & Hreq & _). rewrite H in Hrun. injection Hrun as <- <-.
    exists exps, w1. split; [exact Hg|]. split; [exact Hreq|].
    split; [eapply generate_batch_explanations_length; exact Hg|].
    intros idx.
    match goal with |- context [assign _ _ _ _ ?s1] =>
      destruct (assign_explanations all_files i exps 0 s1 Hlen) as [_ Hlook] end.
    rewrite Hlook. cbn [explanations].
    rewrite (generate_batch_explanations_length _ _ _ _ Hg), Nat.add_0_r.
    reflexivity.
Qed.

(** X13. The corpus that [process_folder] collects is, in walk order, the
    walked files that have an allowed extension and at most 30000 bytes,
    none else; its counters are the consecutive numbers from the first
    counter on. *)
Theorem collect_filtered walked counter0 :
  map (fun e => (file_path e, rel_path e, ext e)) (collect walked counter0)
  = map (fun c => (cand_path c, cand_rel c, cand_ext c))
      (List.filter
         (fun c => bool_decide (cand_ext c ∈ ALLOWED_EXTENSIONS)
                   && (cand_size c <=? 30000)%Z) walked) /\
  map counter (collect walked counter0)
  = seq counter0 (length (collect walked counter0)) /\
  Forall (fun e => ext e ∈ ALLOWED_EXTENSIONS) (collect walked counter0) /\
  length (collect walked counter0) <= length walked.
Proof.
  revert counter0.
  induction walked as [|c walked IH]; intros counter0;
    [repeat split; constructor|].
  cbn [collect List.filter].
  destruct (bool_decide (cand_ext c ∈ ALLOWED_EXTENSIONS)) eqn:Hext; cbn [andb].
  - destruct (cand_size c <=? 30000)%Z.
    + destruct (IH (S counter0)) as (H1 & H2 & H3 & H4).
      cbn [map length seq]. rewrite H1, H2.
      repeat split; [|lia].
      constructor; [|exact H3]. apply bool_decide_eq_true in Hext. exact Hext.
    + destruct (IH counter0) as (H1 & H2 & H3 & H4).
      repeat split; auto. cbn [length]. lia.
  - destruct (IH counter0) as (H1 & H2 & H3 & H4).
    repeat split; auto. cbn [length]. lia.
Qed.

(** X14. [main] raises and leaves the world unchanged, so makes no
    request, when the key is missing, when no folder argument is given or
    when the argument is not a directory; otherwise it runs
    [process_folder] on the argument and ends as that run ends. *)
Theorem main_guards argv w :
  (key_missing = true \/ length argv < 2 \/
   (exists folder_path, argv !! 1 = Some folder_path /\ isdir folder_path = false) ->
   exists exc, main argv w = (Raise exc, w)) /\
  (forall folder_path,
     key_missing = false -> argv !! 1 = Some folder_path ->
     isdir folder_path = true ->
     main argv w
     = (match fst (process_folder folder_path w) with
        | Ret _ => Ret tt
        | Raise exc => Raise exc
        end, snd (process_folder folder_path w))).
Proof.
  unfold main. split.
  - intros [Hk | [Hlen | (folder & Hf & Hd)]].
    + rewrite Hk. eexists. reflexivity.
    + destruct key_missing; [eexists; reflexivity|].
      destruct argv as [|prog [|folder rest]]; try (eexists; reflexivity).
      simpl in Hlen. lia.
    + destruct key_missing; [eexists; reflexivity|].
      destruct argv as [|prog [|folder' rest]]; try discriminate.
      injection Hf as ->. rewrite Hd. eexists. reflexivity.
  - intros folder Hk Hf Hd. rewrite Hk.
    destruct argv as [|prog [|folder' rest]]; try discriminate.
    injection Hf as ->. rewrite Hd. unfold bind, ret.
    destruct (process_folder folder w) as [[out | exc] w1]; reflexivity.
Qed.

Lemma prepare_filter batch : forall batch_data md,
  prepare batch batch_data md
  = (batch_data
       ++ map (fun e => (rel_path e, read_code (file_path e), tail (ext e)))
            (List.filter has_code batch),
     md ++ concat (map (fun e => code_section e (read_code (file_path e)))
                     (List.filter has_code batch))).
Proof.
  induction batch as [|e batch IH]; intros bd md; cbn [prepare List.filter].
  - now rewrite !app_nil_r.
  - assert (Hh : has_code e = match read_code (file_path e) with
                              | [] => false
                              | _ :: _ => true
                              end) by reflexivity.
    destruct (read_code (file_path e)) as [|c code] eqn:E; rewrite Hh.
    + apply IH.
    + rewrite IH. cbn [map concat]. rewrite E, <- !app_assoc. reflexivity.
Qed.

Lemma assign_code_md all_files i exps : forall j st,
  code_md (assign all_files i j exps st) = code_md st.
Proof.
  induction exps as [|e exps IH]; intros j st; [reflexivity|].
  cbn [assign]. cbv zeta. rewrite IH.
  destruct (i + j <? length (explanations st)); [|reflexivity].
  destruct (all_files !! (i + j)); reflexivity.
Qed.

Lemma process_batch_code_md all_files batch_size i st w st' w' :
  process_batch all_files batch_size i st w = (Ret st', w') ->
  code_md st'
  = code_md st
    ++ concat (map (fun e => code_section e (read_code (file_path e)))
                 (List.filter has_code (batch_at all_files batch_size i))).
Proof.
  intros Hrun. unfold batch_at.
  destruct (process_batch_cases all_files batch_size i st w)
    as [[_ H] | (_ & res & w1 & _ & H)].
  - rewrite H in Hrun. injection Hrun as <- _. cbn [code_md].
    now rewrite prepare_filter.
  - destruct res as [exps | exc]; [|congruence].
    destruct H as (w2 & H & _). rewrite H in Hrun. injection Hrun as <- _.
    rewrite assign_code_md. cbn [code_md]. now rewrite prepare_filter.
Qed.

Lemma filter_concat {A} (f : A -> bool) (ls : list (list A)) :
  List.filter f (concat ls) = concat (map (List.filter f) ls).
Proof.
  induction ls as [|l ls IH]; [reflexivity|].
  cbn [concat map]. now rewrite List.filter_app, IH.
Qed.

Lemma batch_loop_code_md all_files batch_size offsets : forall st w st' w',
  batch_loop all_files batch_size offsets st w = (Ret st', w') ->
  code_md st'
  = code_md st
    ++ concat (map (fun e => code_section e (read_code (file_path e)))
                 (List.filter has_code
                    (concat (map (batch_at all_files batch_size) offsets)))).
Proof.
  induction offsets as [|i offsets IH]; intros st w st' w' Hrun.
  - injection Hrun as <- _. simpl. now rewrite app_nil_r.
  - cbn [batch_loop] in Hrun. unfold bind in Hrun.
    destruct (process_batch all_files batch_size i st w) as [[st1 | exc] w1] eqn:Hb;
      [|discriminate].
    rewrite (IH _ _ _ _ Hrun), (process_batch_code_md _ _ _ _ _ _ _ Hb).
    cbn [map concat]. rewrite List.filter_app, map_app, concat_app, <- app_assoc.
    reflexivity.
Qed.

(** X15. The code document of a completed run is its title followed by
    one section per file of the corpus that reads as non-empty text, in
    corpus order, each with the file's counter, path, language tag and
    whole text; the files that read as empty are left out. *)
Theorem process_folder_code_document folder_path w out w' :
  process_folder folder_path w = (Ret out, w') ->
  out_code_md out
  = (lit "# Project Code" ++ [LF; LF])
    ++ concat (map (fun e => code_section e (read_code (file_path e)))
                 (List.filter has_code (collect (walk folder_path) 1))).
Proof.
  intros Hrun. apply process_folder_inv in Hrun. cbv zeta in Hrun.
  destruct Hrun as (st & Hloop & ->). cbn [out_code_md].
  rewrite (batch_loop_code_md _ _ _ _ _ _ _ Hloop). cbn [code_md].
  rewrite batches_all by apply batch_size_of_pos. reflexivity.
Qed.

Lemma all_limited_loop all_files batch_size :
  0 < batch_size ->
  Forall readable all_files ->
  (forall n req, rate_limited (service n req) = true) ->
  forall m k st w,
    length (explanations st) = length all_files ->
    (forall idx, idx < length all_files ->
       explanations st !! idx
       = Some (if idx <? k * batch_size then placeholder (idx mod batch_size)
               else [])) ->
    (forall j, k <= j < k + m -> j * batch_size < length all_files) ->
    exists st' w',
      batch_loop all_files batch_size (map (fun j => j * batch_size) (seq k m)) st w
      = (Ret st', w') /\
      length (explanations st') = length all_files /\
      (forall idx, idx < length all_files ->
         explanations st' !! idx
         = Some (if idx <? (k + m) * batch_size
                 then placeholder (idx mod batch_size) else [])) /\
      requests w' = requests w + DEFAULT_RETRIES * m.
Proof.
  intros Hbs Hread H429 m.
  induction m as [|m IH]; intros k st w Hlen Hinv Hoff.
  - exists st, w. rewrite Nat.add_0_r. repeat split; auto; simpl; lia.
  - cbn [seq map batch_loop]. unfold bind.
    set (i := k * batch_size).
    assert (Hi : i < length all_files) by (apply Hoff; lia).
    pose proof (prepare_length_readable (take batch_size (drop i all_files)) []
                  (code_md st)
                  (Forall_take _ _ _ (Forall_drop _ _ _ Hread))) as Hbd.
    rewrite length_take, length_drop in Hbd. cbn [length] in Hbd.
    destruct (process_batch_cases all_files batch_size i st w)
      as [[Hnil _] | (_ & res & w1 & Hg & H)].
    { rewrite Hnil in Hbd. cbn [length] in Hbd. lia. }
    set (bd := fst (prepare (take batch_size (drop i all_files)) [] (code_md st)))
      in *.
    destruct (call_llm_rate_limited DEFAULT_RETRIES (batch_prompt_of bd) 0 w)
      as (wc & Hcall & Hreq); [intros n req _; apply H429|].
    assert (Hg' : generate_batch_explanations bd w
                  = (Ret (map placeholder (seq 0 (length bd))), wc)).
    { unfold generate_batch_explanations, bind. rewrite Hcall.
      unfold ret. now rewrite parse_exhausted. }
    rewrite Hg' in Hg. injection Hg as <- <-.
    destruct H as (w2 & -> & Hreq2 & _).
    match goal with |- context [assign _ _ _ _ ?s1] =>
      destruct (assign_explanations all_files i
                  (map placeholder (seq 0 (length bd))) 0 s1 Hlen)
        as [Hlen1 Hlook] end.
    match goal with |- context [batch_loop _ _ _ ?s2 w2] =>
      destruct (IH (S k) s2 w2) as (st' & w' & Hloop & Hlen' & Hinv' & Hreq') end.
    + exact Hlen1.
    + intros idx Hidx. rewrite Hlook. cbn [explanations].
      rewrite length_map, length_seq, Nat.add_0_r.
      case_decide as Hd.
      * rewrite list_lookup_fmap, lookup_seq_lt by lia. cbn [option_map fmap].
        replace (idx <? S k * batch_size) with true
          by (symmetry; apply Nat.ltb_lt; lia).
        simpl. do 2 f_equal.
        replace idx with ((idx - i) + k * batch_size) at 2 by (subst i; lia).
        rewrite Nat.Div0.mod_add. symmetry. apply Nat.mod_small. lia.
      * rewrite Hinv by exact Hidx.
        destruct (Nat.ltb_spec idx (k * batch_size)) as [Hlt | Hge].
        -- replace (idx <? S k * batch_size) with true
             by (symmetry; apply Nat.ltb_lt; lia). reflexivity.
        -- replace (idx <? S k * batch_size) with false
             by (symmetry; apply Nat.ltb_ge; subst i; lia). reflexivity.
    + intros j Hj. apply Hoff. lia.
    + exists st', w'. split; [exact Hloop|]. split; [exact Hlen'|]. split.
      * intros idx Hidx. rewrite Hinv' by exact Hidx.
        replace (S k + m) with (k + S m) by lia. reflexivity.
      * lia.
Qed.

(** X16. When the service answers every request with a rate limit, every
    file of the corpus reads as non-empty text and the documents convert,
    the run completes after exactly 3 requests per batch and every slot
    holds the placeholder of its position inside its batch: "Code file 1"
    to "Code file batch_size", starting again in each batch. *)
Theorem process_folder_all_rate_limited folder_path w :
  (forall n req, rate_limited (service n req) = true) ->
  Forall readable (collect (walk folder_path) 1) ->
  (forall md, weasyprint_ok md = true \/ pandoc_failure md = None) ->
  let n := length (collect (walk folder_path) 1) in
  exists out w',
    process_folder folder_path w = (Ret out, w') /\
    out_explanations out
    = map (fun idx => placeholder (idx mod batch_size_of n)) (seq 0 n) /\
    requests w' = requests w + 3 * ((n + batch_size_of n - 1) / batch_size_of n).
Proof.
  intros H429 Hread Hpdf. cbv zeta.
  set (all_files := collect (walk folder_path) 1) in *.
  set (n := length all_files). set (bs := batch_size_of n).
  assert (Hbs : 0 < bs) by apply batch_size_of_pos.
  destruct (all_limited_loop all_files bs Hbs Hread H429 ((n + bs - 1) / bs) 0
              (mkFolderState (replicate n [])
                 (lit "# Project Code" ++ [LF; LF])
                 (lit "# Project Explanations" ++ [LF; LF])) w)
    as (st & w' & Hloop & Hlen & Hinv & Hreq).
  - apply length_replicate.
  - intros idx Hidx. cbn [explanations]. rewrite lookup_replicate_2 by exact Hidx.
    reflexivity.
  - intros j Hj.
    apply (range_step_below n bs (j * bs) Hbs).
    unfold range_step. apply in_map_iff. exists j. split; [reflexivity|].
    apply in_seq. lia.
  - assert (Hsave : forall md w0, save_pdf_from_markdown md w0 = (Ret tt, w0)).
    { intros md w0. unfold save_pdf_from_markdown.
      destruct (Hpdf md) as [-> | Hp]; [reflexivity|].
      rewrite Hp. destruct (weasyprint_ok md); reflexivity. }
    eexists _, w'. split; [|split].
    + unfold process_folder. fold all_files. fold n. fold bs.
      unfold range_step. unfold bind at 1. rewrite Hloop.
      unfold bind. rewrite !Hsave. reflexivity.
    + cbn [out_explanations]. apply list_eq. intros idx.
      destruct (Nat.lt_ge_cases idx n) as [Hidx | Hidx].
      * rewrite Hinv by exact Hidx.
        rewrite list_lookup_fmap, lookup_seq_lt by exact Hidx.
        pose proof (range_step_covers n bs Hbs).
        replace (idx <? (0 + (n + bs - 1) / bs) * bs) with true
          by (symmetry; apply Nat.ltb_lt; simpl; lia).
        reflexivity.
      * rewrite !lookup_ge_None_2; [reflexivity | |].
        -- rewrite length_map, length_seq. exact Hidx.
        -- rewrite Hlen. exact Hidx.
    + rewrite Hreq. reflexivity.
Qed.

(** ** Prompts *)

Lemma attempts_ext recurse1 recurse2 mi content retries :
  (forall w, recurse1 w = recurse2 w) ->
  forall k attempt w,
    attempts recurse1 mi content retries k attempt w
    = attempts recurse2 mi content retries k attempt w.
Proof.
  intros Hrec k. induction k as [|k IH]; intros attempt w; [reflexivity|].
  rewrite !attempts_step. cbv zeta.
  destruct (classify _); auto.
  destruct (attempt =? retries - 1); auto.
Qed.

Lemma call_llm_take retries prompt : forall mi w,
  call_llm retries prompt mi w
  = call_llm retries (take (Z.to_nat 8000) prompt) mi w.
Proof.
  induction retries as [|r IH]; intros mi w; cbn [call_llm];
    rewrite take_take, Nat.min_id; [reflexivity|].
  apply attempts_ext. intros w0. apply IH.
Qed.

Lemma batch_items_prompt_take file_batch : forall i,
  batch_items_prompt i
    (map (fun item => (fst (fst item), take 500 (snd (fst item)), snd item))
       file_batch)
  = batch_items_prompt i file_batch.
Proof.
  induction file_batch as [|[[filename code] ext0] rest IH]; intros i;
    [reflexivity|].
  cbn [map batch_items_prompt fst snd]. rewrite IH.
  unfold batch_item_prompt. now rewrite take_take, Nat.min_id.
Qed.

(** X17. The service never sees more than the code lets through:
    [call_llm] treats a prompt as its first 8000 characters,
    [get_explanation] a file as its first 2000 characters, and the batch
    prompt each file as its first 500 characters; what follows changes
    neither the requests nor the result. *)
Theorem prompts_truncated :
  (forall retries prompt mi w,
     call_llm retries prompt mi w
     = call_llm retries (take (Z.to_nat 8000) prompt) mi w) /\
  (forall code filename w,
     get_explanation code filename w = get_explanation (take 2000 code) filename w) /\
  (forall file_batch w,
     generate_batch_explanations
       (map (fun item => (fst (fst item), take 500 (snd (fst item)), snd item))
          file_batch) w
     = generate_batch_explanations file_batch w).
Proof.
  split; [|split].
  - intros. apply call_llm_take.
  - intros. unfold get_explanation. now rewrite take_take, Nat.min_id.
  - intros. unfold generate_batch_explanations, batch_prompt_of.
    now rewrite batch_items_prompt_take, length_map.
Qed.

(** ** The upload front end and the report *)

Lemma collect_allowed_files_acc walked max_files : forall files,
  files = [] \/ (Z.of_nat (length files) < max_files)%Z ->
  collect_allowed_files walked max_files files
  = files
    ++ take (Z.to_nat (Z.max 1 max_files) - length files)
         (map cand_path
            (List.filter (fun c => bool_decide (cand_ext c ∈ ALLOWED_EXTENSIONS))
               walked)).
Proof.
  induction walked as [|c walked IH]; intros files Hfiles;
    cbn [collect_allowed_files List.filter].
  - cbn [map]. now rewrite take_nil, app_nil_r.
  - destruct (bool_decide (cand_ext c ∈ ALLOWED_EXTENSIONS)); [|apply IH; exact Hfiles].
    cbv zeta. rewrite length_app. cbn [length map].
    destruct (Z.leb_spec max_files (Z.of_nat (length files + 1))) as [Hle | Hgt].
    + replace (Z.to_nat (Z.max 1 max_files) - length files) with 1; [reflexivity|].
      destruct Hfiles as [-> | Hlt]; simpl in *; lia.
    + rewrite IH by (right; rewrite length_app; simpl; lia).
      rewrite length_app. cbn [length]. rewrite <- app_assoc.
      replace (Z.to_nat (Z.max 1 max_files) - length files)
        with (S (Z.to_nat (Z.max 1 max_files) - (length files + 1))) by lia.
      reflexivity.
Qed.

(** X18. [collect_allowed_files] of the upload front end returns, in walk
    order, the paths of the first [max_files] files with an allowed
    extension; a limit of 0 or less still lets the first such file
    through, so the result has at most [max(1, max_files)] paths. *)
Theorem collect_allowed_files_limit walked max_files :
  collect_allowed_files walked max_files []
  = take (Z.to_nat (Z.max 1 max_files))
      (map cand_path
         (List.filter (fun c => bool_decide (cand_ext c ∈ ALLOWED_EXTENSIONS))
            walked)) /\
  length (collect_allowed_files walked max_files [])
  <= Z.to_nat (Z.max 1 max_files) /\
  ((max_files <= 0)%Z ->
   length (collect_allowed_files walked max_files []) <= 1 /\
   (length (collect_allowed_files walked max_files []) = 0 <->
    List.filter (fun c => bool_decide (cand_ext c ∈ ALLOWED_EXTENSIONS)) walked = [])).
Proof.
  rewrite (collect_allowed_files_acc walked max_files []) by (left; reflexivity).
  cbn [app length]. rewrite Nat.sub_0_r.
  split; [reflexivity|]. split; [rewrite length_take; lia|].
  intros Hmax. replace (Z.to_nat (Z.max 1 max_files)) with 1 by lia.
  destruct (List.filter _ walked) as [|c rest]; simpl; split; try lia;
    split; congruence.
Qed.

(** X19. The four bars of the complexity chart count every function
    exactly once; the functions the statistics and the suggestions call
    complex (complexity above 10) are those of the bars "High" and "Very
    High" together, and the very complex ones (above 20) those of the bar
    "Very High". *)
Theorem complexity_bars_partition functions :
  let '(low, medium, high, very_high) := complexity_bars functions in
  low + medium + high + very_high = length functions /\
  high + very_high = length (complex_funcs functions) /\
  very_high = length (very_complex_funcs functions).
Proof.
  unfold complexity_bars, complex_funcs, very_complex_funcs.
  induction functions as [|f functions IH]; [repeat split|].
  cbn [map List.filter length].
  destruct IH as (H1 & H2 & H3).
  destruct (Z.leb_spec (cyclomatic_complexity f) 5),
           (Z.ltb_spec 5 (cyclomatic_complexity f)),
           (Z.leb_spec (cyclomatic_complexity f) 10),
           (Z.ltb_spec 10 (cyclomatic_complexity f)),
           (Z.leb_spec (cyclomatic_complexity f) 20),
           (Z.ltb_spec 20 (cyclomatic_complexity f));
    cbn [andb length]; try lia.
Qed.

Lemma dict_get_bump ext ext' file_types :
  dict_get ext' (bump ext file_types)
  = dict_get ext' file_types + (if decide (ext = ext') then 1 else 0).
Proof.
  induction file_types as [|[k v] rest IH]; cbn [bump dict_get].
  - repeat case_decide; congruence || lia.
  - destruct (decide (k = ext)) as [-> | Hk]; cbn [dict_get].
    + repeat case_decide; congruence || lia.
    + destruct (decide (k = ext')) as [-> | Hk'].
      * rewrite decide_False by congruence. lia.
      * exact IH.
Qed.

Lemma bump_keys ext file_types :
  map fst (bump ext file_types)
  = if decide (ext ∈ map fst file_types) then map fst file_types
    else map fst file_types ++ [ext].
Proof.
  induction file_types as [|[k v] rest IH]; cbn [bump map fst].
  - rewrite decide_False by apply not_elem_of_nil. reflexivity.
  - destruct (decide (k = ext)) as [-> | Hk]; cbn [map fst].
    + rewrite decide_True by (apply list_elem_of_In; left; reflexivity).
      reflexivity.
    + rewrite IH. destruct (decide (ext ∈ map fst rest)) as [Hin | Hin].
      * rewrite decide_True
          by (apply list_elem_of_In; right; apply list_elem_of_In; exact Hin).
        reflexivity.
      * rewrite decide_False; [reflexivity|].
        intros H. apply list_elem_of_In in H. destruct H as [H | H];
          [congruence | apply Hin, list_elem_of_In, H].
Qed.

Lemma bump_values ext file_types :
  Forall (fun p => 1 <= snd p) file_types ->
  Forall (fun p => 1 <= snd p) (bump ext file_types) /\
  sum_list (map snd (bump ext file_types)) = S (sum_list (map snd file_types)).
Proof.
  induction 1 as [|[k v] rest Hv Hrest IH]; cbn [bump].
  - split; [repeat constructor | reflexivity].
  - destruct (decide (k = ext)); cbn [map snd sum_list] in *.
    + split; [constructor; [simpl; lia | exact Hrest] | simpl; lia].
    + destruct IH as [IH1 IH2]. split; [constructor; assumption|].
      simpl. rewrite IH2. lia.
Qed.

Lemma dict_get_in k v file_types :
  NoDup (map fst file_types) -> In (k, v) file_types -> dict_get k file_types = v.
Proof.
  induction file_types as [|[k0 v0] rest IH]; intros Hnd Hin; [destruct Hin|].
  cbn [map fst] in Hnd. apply NoDup_cons in Hnd. destruct Hnd as [Hk0 Hnd].
  cbn [dict_get]. destruct Hin as [[= -> ->] | Hin].
  - now rewrite decide_True.
  - rewrite decide_False; [exact (IH Hnd Hin)|].
    intros ->. apply Hk0. apply list_elem_of_In.
    apply in_map_iff. exists (k, v). split; [reflexivity | exact Hin].
Qed.

Lemma file_types_fold walked : forall file_types,
  let step := fun file_types c =>
    if bool_decide (cand_ext c ∈ ALLOWED_EXTENSIONS)
    then bump (cand_ext c) file_types else file_types in
  NoDup (map fst file_types) ->
  Forall (fun p => fst p ∈ ALLOWED_EXTENSIONS /\ 1 <= snd p) file_types ->
  NoDup (map fst (fold_left step walked file_types)) /\
  Forall (fun p => fst p ∈ ALLOWED_EXTENSIONS /\ 1 <= snd p)
    (fold_left step walked file_types) /\
  (forall ext0,
     dict_get ext0 (fold_left step walked file_types)
     = dict_get ext0 file_types
       + length (List.filter
                   (fun c => bool_decide (cand_ext c ∈ ALLOWED_EXTENSIONS)
                             && bool_decide (cand_ext c = ext0)) walked)) /\
  sum_list (map snd (fold_left step walked file_types))
  = sum_list (map snd file_types)
    + length (List.filter
                (fun c => bool_decide (cand_ext c ∈ ALLOWED_EXTENSIONS)) walked).
Proof.
  cbv zeta. induction walked as [|c walked IH]; intros ft Hnd Hall.
  - cbn [fold_left List.filter length]. repeat split; auto.
  - cbn [fold_left List.filter].
    destruct (bool_decide (cand_ext c ∈ ALLOWED_EXTENSIONS)) eqn:Hext; cbn [andb].
    + apply bool_decide_eq_true in Hext.
      assert (Hnd' : NoDup (map fst (bump (cand_ext c) ft))).
      { rewrite bump_keys. case_decide as Hin; [exact Hnd|].
        apply NoDup_app. split; [exact Hnd|]. split; [|apply NoDup_singleton].
        intros x Hx Hx'. apply list_elem_of_singleton in Hx'. subst x.
        apply Hin. exact Hx. }
      assert (Hall' : Forall (fun p => fst p ∈ ALLOWED_EXTENSIONS /\ 1 <= snd p)
                        (bump (cand_ext c) ft)).
      { clear -Hall Hext. induction Hall as [|[k v] rest [Hk Hv] Hrest IH']; cbn [bump].
        - constructor; [split; [exact Hext | simpl; lia] | constructor].
        - destruct (decide (k = cand_ext c)).
          + constructor; [split; [exact Hk | simpl; lia] | assumption].
          + constructor; [split; assumption | exact IH']. }
      destruct (IH _ Hnd' Hall') as (H1 & H2 & H3 & H4).
      split; [exact H1|]. split; [exact H2|]. split.
      * intros ext0. rewrite H3, dict_get_bump.
        destruct (decide (cand_ext c = ext0)) as [E | E].
        -- rewrite bool_decide_eq_true_2 by exact E. cbn [length]. lia.
        -- rewrite bool_decide_eq_false_2 by exact E. lia.
      * rewrite H4. cbn [length].
        destruct (bump_values (cand_ext c) ft) as [_ ->]; [|lia].
        eapply Forall_impl; [exact Hall|]. intros p [_ Hp]. exact Hp.
    + destruct (IH _ Hnd Hall) as (H1 & H2 & H3 & H4).
      repeat split; auto.
Qed.

Lemma dict_get_positive k file_types :
  1 <= dict_get k file_types -> exists v, In (k, v) file_types.
Proof.
  induction file_types as [|[k0 v0] rest IH]; cbn [dict_get]; [lia|].
  destruct (decide (k0 = k)) as [-> | Hk]; intros Hpos.
  - exists v0. left. reflexivity.
  - destruct (IH Hpos) as [v Hv]. exists v. right. exact Hv.
Qed.

(** X20. The file-type distribution of the report has one entry per
    allowed extension that occurs among the walked files, without
    repetition; the count of an entry is the number of walked files with
    that extension, at least 1, and the counts add up to the number of
    walked files with an allowed extension. The entries stand in order of
    first occurrence: one more walked file adds its extension after the
    entries already there when it is allowed and new, and leaves the keys
    as they are otherwise. *)
Theorem get_file_type_distribution_counts walked :
  NoDup (map fst (get_file_type_distribution walked)) /\
  (forall ext0 count,
     In (ext0, count) (get_file_type_distribution walked) ->
     ext0 ∈ ALLOWED_EXTENSIONS /\ 1 <= count /\
     count = length (List.filter (fun c => bool_decide (cand_ext c = ext0)) walked)) /\
  (forall c,
     In c walked -> cand_ext c ∈ ALLOWED_EXTENSIONS ->
     exists count, In (cand_ext c, count) (get_file_type_distribution walked)) /\
  sum_list (map snd (get_file_type_distribution walked))
  = length (List.filter
              (fun c => bool_decide (cand_ext c ∈ ALLOWED_EXTENSIONS)) walked) /\
  (forall c,
     map fst (get_file_type_distribution (walked ++ [c]))
     = if bool_decide (cand_ext c ∈ ALLOWED_EXTENSIONS)
          && negb (bool_decide
                     (cand_ext c ∈ map fst (get_file_type_distribution walked)))
       then map fst (get_file_type_distribution walked) ++ [cand_ext c]
       else map fst (get_file_type_distribution walked)).
Proof.
  unfold get_file_type_distribution.
  destruct (file_types_fold walked [] (NoDup_nil_2) (Forall_nil_2 _))
    as (Hnd & Hall & Hget & Hsum).
  split; [exact Hnd|]. split; [|split; [|split; [exact Hsum|]]].
  - intros ext0 count Hin.
    rewrite Forall_forall in Hall.
    destruct (Hall (ext0, count) ltac:(apply list_elem_of_In; exact Hin)) as [Hk Hv].
    cbn [fst snd] in Hk, Hv. split; [exact Hk|]. split; [exact Hv|].
    rewrite <- (dict_get_in _ _ _ Hnd Hin), Hget. cbn [dict_get plus].
    f_equal. apply List.filter_ext. intros c.
    destruct (bool_decide (cand_ext c = ext0)) eqn:E; [|now rewrite andb_false_r].
    apply bool_decide_eq_true in E. rewrite E.
    now rewrite bool_decide_eq_true_2 by exact Hk.
  - intros c Hc Hext. apply dict_get_positive. rewrite Hget. cbn [dict_get plus].
    assert (Hin : In c (List.filter
                          (fun c0 => bool_decide (cand_ext c0 ∈ ALLOWED_EXTENSIONS)
                                     && bool_decide (cand_ext c0 = cand_ext c))
                          walked)).
    { apply List.filter_In. split; [exact Hc|].
      rewrite !bool_decide_eq_true_2; [reflexivity | reflexivity | exact Hext]. }
    destruct (in_split _ _ Hin) as (l1 & l2 & ->).
    rewrite length_app. simpl. lia.
  - intros c. rewrite fold_left_app. cbn [fold_left].
    destruct (bool_decide (cand_ext c ∈ ALLOWED_EXTENSIONS)); cbn [andb];
      [|reflexivity].
    rewrite bump_keys. case_decide as Hin.
    + rewrite bool_decide_eq_true_2 by exact Hin. reflexivity.
    + rewrite bool_decide_eq_false_2 by exact Hin. reflexivity.
Qed.

(** ** Failures and the quiz *)

Lemma quiz_keeps_placeholder i : quiz_keeps (placeholder i) = true.
Proof. reflexivity. Qed.

Lemma quiz_questions_all_kept explanations :
  Forall (fun x => quiz_keeps x = true) explanations ->
  length (quiz_questions explanations) = Nat.min 10 (length explanations).
Proof.
  intros Hall. unfold quiz_questions.
  assert (Hk : forall s l, Forall (fun x => quiz_keeps x = true) l ->
            List.filter (fun p => quiz_keeps (snd p)) (enumerate_from s l)
            = enumerate_from s l).
  { intros s l Hl. revert s. unfold enumerate_from.
    induction Hl as [|x l Hx _ IH]; intros s; [reflexivity|].
    cbn [length seq combine List.filter snd]. rewrite Hx. f_equal. apply IH. }
  rewrite Hk by (apply Forall_take; exact Hall).
  rewrite length_enumerate_from, length_take. reflexivity.
Qed.

(** X21. The quiz cannot tell a placeholder from a summary: every
    placeholder becomes a question, so a list made of placeholders yields
    one question per entry among the first ten, whereas the texts with
    which [call_llm] reports exhaustion or a request error are never made
    into questions. *)
Theorem quiz_keeps_placeholders :
  (forall i, quiz_keeps (placeholder i) = true) /\
  (forall n batch_size,
     length (quiz_questions
               (map (fun idx => placeholder (idx mod batch_size)) (seq 0 n)))
     = Nat.min 10 n) /\
  quiz_keeps exhausted_msg = false /\
  (forall e, quiz_keeps (failure_msg e) = false).
Proof.
  split; [exact quiz_keeps_placeholder|]. split; [|split; [reflexivity|]].
  - intros n bs. rewrite quiz_questions_all_kept.
    + now rewrite length_map, length_seq.
    + apply Forall_forall. intros x Hx. apply list_elem_of_fmap in Hx.
      destruct Hx as (i & -> & _). apply quiz_keeps_placeholder.
  - intros e. reflexivity.
Qed.

End Explainer.

(** * The properties at sample inputs *)

Lemma parse_batch_response_total_witness :
  length (parse_batch_response no_unicode no_unicode (lit "1. a") 3) = 3 /\
  parse_batch_response no_unicode no_unicode (lit "1. a") 3
    = [lit "Code file 1"; lit "Code file 2"; lit "Code file 3"].
Proof.
  destruct (parse_batch_response_total no_unicode no_unicode (lit "1. a") 3)
    as (Hlen & Hfall & _ & _); [lia|].
  split; [exact Hlen|].
  rewrite Hfall; [reflexivity | vm_compute; discriminate].
Defined.

Lemma parse_batch_response_aligned_witness :
  parse_batch_response no_unicode no_unicode
    (lit "1. a" ++ [LF] ++ lit " 2) b  ") 2 = [lit "a"; lit "b"].
Proof.
  apply (proj1 (parse_batch_response_aligned no_unicode no_unicode)
           (lit "1. a" ++ [LF] ++ lit " 2) b  ") [lit "a"; lit "b"]).
  exact (scan_lines_aligned no_unicode no_unicode
           (split LF (lit "1. a" ++ [LF] ++ lit " 2) b  "))).
Defined.

(** C3 as written fails: exactly one line of "1. a\n 2. b" begins with a
    number, yet with [expected_count = 1] the parser returns the
    placeholder, because the indented second line matches once trimmed. *)
Lemma parse_batch_response_untrimmed_counterexample :
  aligned_untrimmed no_unicode no_unicode
    (split LF (lit "1. a" ++ [LF] ++ lit " 2. b")) [lit "a"] /\
  parse_batch_response no_unicode no_unicode
    (lit "1. a" ++ [LF] ++ lit " 2. b") (Z.of_nat (length [lit "a"]))
  <> [lit "a"].
Proof.
  split; [|vm_compute; discriminate].
  apply (untrimmed_take no_unicode no_unicode (lit "1. a") [lit " 2. b"] []
           [49%N] 46%N (lit " a")).
  - reflexivity.
  - discriminate.
  - repeat constructor.
  - left; reflexivity.
  - apply untrimmed_skip; [|constructor].
    intros (ds & p & rest & Hs & Hne & Hds & _).
    destruct ds as [|d ds]; [congruence|].
    injection Hs as <- _. inversion Hds as [|? ? Hd _]. discriminate Hd.
Qed.


(** C1 as written fails: a corpus whose only file is an empty
    [__init__.py] leaves its slot empty. *)
Lemma process_folder_empty_slot_counterexample :
  exists out w',
    process_folder no_unicode no_unicode sample_http_error service_ok no_jitter
      text_empty converter_ok fallback_unused walk_empty_init (lit "pkg") world0
    = (Ret out, w') /\
    length (collect (walk_empty_init (lit "pkg")) 1) = 1 /\
    out_explanations out = [[]].
Proof.
  eexists _, _. split; [vm_compute; reflexivity|]. split; reflexivity.
Qed.

(** An empty slot also arises from a reply whose numbered line has nothing
    after its number. *)
Example process_folder_blank_item :
  exists out w',
    process_folder no_unicode no_unicode sample_http_error service_blank no_jitter
      text_print converter_ok fallback_unused walk_one_file (lit "pkg") world0
    = (Ret out, w') /\
    out_explanations out = [[]].
Proof.
  eexists _, _. split; [vm_compute; reflexivity|]. reflexivity.
Qed.

(** So does a reply whose item is left empty once [call_llm] has removed
    the characters outside ASCII, although the reply itself has text after
    the number. *)
Example process_folder_non_ascii_item :
  exists out w',
    process_folder no_unicode no_unicode sample_http_error service_cjk no_jitter
      text_print converter_ok fallback_unused walk_one_file (lit "pkg") world0
    = (Ret out, w') /\
    out_explanations out = [[]].
Proof.
  eexists _, _. split; [vm_compute; reflexivity|]. reflexivity.
Qed.

Lemma process_folder_slots_witness :
  exists out w',
    process_folder no_unicode no_unicode sample_http_error service_ok no_jitter
      text_print converter_ok fallback_unused walk_one_file (lit "pkg") world0
    = (Ret out, w') /\
    length (out_explanations out) = 1 /\
    Forall (fun explanation => explanation <> []) (out_explanations out).
Proof.
  destruct (process_folder no_unicode no_unicode sample_http_error service_ok
              no_jitter text_print converter_ok fallback_unused walk_one_file
              (lit "pkg") world0) as [[out | exc] w'] eqn:E;
    [|vm_compute in E; discriminate].
  exists out, w'. split; [reflexivity|].
  destruct (process_folder_slots _ _ _ _ _ _ _ _ _ _ _ _ _ E) as [Hlen Hne].
  split; [exact Hlen|]. apply Hne.
  - repeat constructor. discriminate.
  - intros o s (n & req & <-) Hs. injection Hs as <-.
    vm_compute. repeat constructor. discriminate.
Defined.


(** A run over two batches in which only the second one is rate-limited,
    and one in which only the first one is: the other batch keeps the
    explanations it received. *)
Example process_folder_sibling_batches :
  (exists out w',
     process_folder no_unicode no_unicode sample_http_error service_ok_then_busy
       no_jitter text_print converter_ok fallback_unused walk_three_files
       (lit "pkg") world0 = (Ret out, w') /\
     out_explanations out = [lit "Reads a"; lit "Reads b"; lit "Code file 1"] /\
     requests w' = 4) /\
  (exists out w',
     process_folder no_unicode no_unicode sample_http_error service_busy_then_ok
       no_jitter text_print converter_ok fallback_unused walk_three_files
       (lit "pkg") world0 = (Ret out, w') /\
     out_explanations out = [lit "Code file 1"; lit "Code file 2"; lit "Reads c"] /\
     requests w' = 4).
Proof.
  split; eexists _, _; (split; [vm_compute; reflexivity|]); split; reflexivity.
Qed.




(** C6 fails on the code: with time-outs on the requests 0, 1 and 3 and
    rate limits elsewhere, one call with the default budget makes six
    attempts. *)
Lemma call_llm_six_attempts :
  length (posts (emitted world0
                   (snd (call_llm sample_http_error service_mixed no_jitter
                           DEFAULT_RETRIES (lit "Explain") 0 world0)))) = 6 /\
  requests (snd (call_llm sample_http_error service_mixed no_jitter
                   DEFAULT_RETRIES (lit "Explain") 0 world0)) = 6 /\
  budget_bound DEFAULT_RETRIES = 6.
Proof. repeat split; vm_compute; reflexivity. Qed.

Lemma call_llm_rotation_witness :
  exists a b,
    posts (emitted world0
             (snd (call_llm sample_http_error service_mixed no_jitter
                     DEFAULT_RETRIES (lit "Explain") 0 world0))) !! 2 = Some a /\
    posts (emitted world0
             (snd (call_llm sample_http_error service_mixed no_jitter
                     DEFAULT_RETRIES (lit "Explain") 0 world0))) !! 3 = Some b /\
    att_model_index a = 0%Z /\ att_model_index b = 1%Z /\
    att_model b = lit "google/gemma-2-9b-it:free".
Proof.
  destruct (posts (emitted world0
              (snd (call_llm sample_http_error service_mixed no_jitter
                      DEFAULT_RETRIES (lit "Explain") 0 world0))) !! 2)
    as [a|] eqn:Ea; [|vm_compute in Ea; discriminate].
  destruct (posts (emitted world0
              (snd (call_llm sample_http_error service_mixed no_jitter
                      DEFAULT_RETRIES (lit "Explain") 0 world0))) !! 3)
    as [b|] eqn:Eb; [|vm_compute in Eb; discriminate].
  destruct (call_llm_rotation sample_http_error service_mixed no_jitter
              DEFAULT_RETRIES (lit "Explain") 0 world0 2 a b Ea Eb)
    as (Hrl & _ & _ & _).
  pose proof Ea as Ea'. vm_compute in Ea'. injection Ea' as <-.
  destruct (Hrl eq_refl) as [Hidx Hmodel].
  eexists _, b. split; [reflexivity|]. split; [reflexivity|].
  split; [reflexivity|]. split; [exact Hidx | exact Hmodel].
Defined.


(** C8 fails on the code: with time-outs on the requests 0 and 1 and a
    rate limit on every later one, and without jitter, a call with the
    default budget sleeps 20 seconds after its first rate limit, met on
    attempt 2, and 5 seconds after each of the two rate limits that
    follow, whose attempts are numbered 0 again. *)
Lemma call_llm_backoff_restarts :
  let evs :=
    emitted world0
      (snd (call_llm sample_http_error service_late_limit no_jitter DEFAULT_RETRIES
              (lit "Explain") 0 world0)) in
  map (fun a => rate_limited (att_outcome a)) (posts evs)
  = [false; false; true; true; true] /\
  map att_number (posts evs) = [0; 1; 2; 0; 0] /\
  map att_retries (posts evs) = [3; 3; 3; 2; 1] /\
  sleeps evs = [1; 2; 20; 5; 5]%Q /\
  (rate_limit_wait 0 0 < rate_limit_wait 2 0)%Q.
Proof. cbv zeta. repeat split; vm_compute; reflexivity. Qed.

Lemma generate_simple_quiz_reproducible_witness :
  exists out1 out2 w1' w2',
    process_folder no_unicode no_unicode sample_http_error service_ok no_jitter
      text_print converter_ok fallback_unused walk_one_file (lit "pkg") world0
    = (Ret out1, w1') /\
    process_folder no_unicode no_unicode sample_http_error service_ok no_jitter
      text_print converter_ok fallback_unused walk_one_file (lit "other")
      (mkWorld 5 2 [])
    = (Ret out2, w2') /\
    out_quiz_md out1 = out_quiz_md out2.
Proof.
  destruct (process_folder no_unicode no_unicode sample_http_error service_ok
              no_jitter text_print converter_ok fallback_unused walk_one_file
              (lit "pkg") world0) as [[out1 | exc] w1'] eqn:E1;
    [|vm_compute in E1; discriminate].
  destruct (process_folder no_unicode no_unicode sample_http_error service_ok
              no_jitter text_print converter_ok fallback_unused walk_one_file
              (lit "other") (mkWorld 5 2 [])) as [[out2 | exc] w2'] eqn:E2;
    [|vm_compute in E2; discriminate].
  destruct (generate_simple_quiz_reproducible _ _ _ _ _ _ _ _ _ _ _ _ _ _ _ _ _ E1 E2)
    as (_ & _ & Heq).
  exists out1, out2, w1', w2'. split; [reflexivity|]. split; [reflexivity|].
  apply Heq.
  pose proof E1 as E1'. vm_compute in E1'. injection E1' as <- _.
  pose proof E2 as E2'. vm_compute in E2'. injection E2' as <- _.
  reflexivity.
Defined.


(** * The further properties at sample inputs *)

Lemma safe_path_slashes_witness : safe_path (lit "src/a.py") = lit "src/a.py".
Proof.
  apply (proj1 (proj2 (proj2 (safe_path_slashes (lit "src/a.py"))))).
  vm_compute. intros H.
  repeat (destruct H as [H | H]; [discriminate H|]). exact H.
Defined.

Lemma parse_batch_response_prose_witness :
  parse_batch_response no_unicode no_unicode (lit "Sorry, no list.") 2
  = [lit "Code file 1"; lit "Code file 2"].
Proof.
  apply (parse_batch_response_prose no_unicode no_unicode (lit "Sorry, no list.") 2).
  vm_compute. repeat constructor.
Defined.

Lemma call_llm_request_budget_witness :
  1 <= length (posts (emitted world0
                        (snd (call_llm sample_http_error service_mixed no_jitter
                                DEFAULT_RETRIES (lit "Explain") 0 world0)))).
Proof.
  apply (proj1 (proj2 (proj2 (proj2 (proj2
           (call_llm_request_budget sample_http_error service_mixed no_jitter
              DEFAULT_RETRIES (lit "Explain") 0 world0)))))).
  unfold DEFAULT_RETRIES. lia.
Defined.

Lemma call_llm_result_shape_witness :
  exists s,
    fst (call_llm sample_http_error service_flaky no_jitter DEFAULT_RETRIES
           (lit "Explain") 0 world0) = Ret s /\
    Forall (fun c => (c < 128)%N) s /\ startswith s WARNING = false.
Proof.
  pose proof (call_llm_result_shape sample_http_error service_flaky no_jitter
                DEFAULT_RETRIES (lit "Explain") 0 world0 (le_n DEFAULT_RETRIES))
    as Hshape.
  destruct (fst (call_llm sample_http_error service_flaky no_jitter DEFAULT_RETRIES
                   (lit "Explain") 0 world0)) as [s | exc] eqn:E;
    [|vm_compute in E; discriminate].
  exists s. split; [reflexivity|].
  destruct Hshape as [Hmark | (o & text & _ & _ & _ & Hascii & Hmark)].
  - vm_compute in E. injection E as <-. vm_compute in Hmark. discriminate.
  - split; [exact Hascii | exact Hmark].
Defined.

Lemma call_llm_persistent_errors_witness :
  exists w',
    call_llm sample_http_error service_down no_jitter DEFAULT_RETRIES
      (lit "Explain") 0 world0
    = (Ret (failure_msg (lit "timed out")), w') /\
    requests w' = 3.
Proof.
  destruct (call_llm_persistent_errors sample_http_error service_down no_jitter
              DEFAULT_RETRIES (lit "Explain") 0 world0 (fun _ => lit "timed out"))
    as (w' & evs & Hrun & Hreq & _).
  - unfold DEFAULT_RETRIES. lia.
  - intros i req _. reflexivity.
  - exists w'. split; [exact Hrun | exact Hreq].
Defined.

Lemma call_llm_recovers_witness :
  exists w',
    call_llm sample_http_error service_flaky no_jitter DEFAULT_RETRIES
      (lit "Explain") 0 world0
    = (Ret (lit "1. caf ok"), w') /\
    requests w' = 2.
Proof.
  destruct (call_llm_recovers sample_http_error service_flaky no_jitter
              DEFAULT_RETRIES (lit "Explain") 0 world0 (fun _ => lit "timed out") 1
              (lit "1. caf" ++ [233%N] ++ lit " ok"))
    as (w' & evs & Hrun & Hreq & _).
  - unfold DEFAULT_RETRIES. lia.
  - intros i req Hi. destruct i; [reflexivity | lia].
  - intros req. reflexivity.
  - exists w'. split; [exact Hrun | exact Hreq].
Defined.

Lemma call_llm_counter_restarts_witness :
  exists seconds,
    emitted world0
      (snd (call_llm sample_http_error service_late_limit no_jitter DEFAULT_RETRIES
              (lit "Explain") 0 world0)) !! 7 = Some (EvSleep seconds) /\
    (5 <= seconds <= 10)%Q.
Proof.
  destruct (call_llm_counter_restarts sample_http_error service_late_limit no_jitter
              DEFAULT_RETRIES (lit "Explain") 0 world0 4
              (mkAttempt 0 (model_at 0) 2 3 (Response 429 (Content [])))
              (mkAttempt 1 (model_at 1) 0 2 (Response 429 (Content []))))
    as [Hlimited _].
  - unfold DEFAULT_RETRIES. lia.
  - intros n. unfold no_jitter. split; discriminate.
  - vm_compute. reflexivity.
  - vm_compute. reflexivity.
  - destruct (Hlimited eq_refl) as (_ & _ & Hsleep). exact (Hsleep eq_refl).
Defined.

Lemma call_llm_waits_witness :
  (total_sleep (emitted world0
                  (snd (call_llm sample_http_error service_mixed no_jitter
                          DEFAULT_RETRIES (lit "Explain") 0 world0))) <= 63)%Q.
Proof.
  apply (call_llm_waits sample_http_error service_mixed no_jitter
           (lit "Explain") 0 world0).
  intros n. unfold no_jitter. split; discriminate.
Defined.

Lemma process_batch_writes_witness :
  exists st' w',
    process_batch no_unicode no_unicode sample_http_error service_ok no_jitter
      text_print (collect (walk_one_file (lit "pkg")) 1) 2 0
      (mkFolderState [[]] [] []) world0 = (Ret st', w') /\
    explanations st' !! 0 = Some (lit "Reads a file") /\
    explanations st' !! 1 = None.
Proof.
  destruct (process_batch no_unicode no_unicode sample_http_error service_ok
              no_jitter text_print (collect (walk_one_file (lit "pkg")) 1) 2 0
              (mkFolderState [[]] [] []) world0) as [[st' | exc] w'] eqn:E;
    [|vm_compute in E; discriminate].
  destruct (process_batch_writes no_unicode no_unicode sample_http_error service_ok
              no_jitter text_print (collect (walk_one_file (lit "pkg")) 1) 2 0
              (mkFolderState [[]] [] []) world0 st' w' eq_refl E)
    as (_ & _ & Hwrites).
  destruct Hwrites as (exps & w1 & Hg & _ & _ & Hlook);
    [vm_compute; discriminate|].
  exists st', w'. split; [reflexivity|]. rewrite !Hlook.
  vm_compute in Hg. injection Hg as <- _. split; reflexivity.
Defined.

Lemma main_guards_witness :
  exists exc,
    main no_unicode no_unicode sample_http_error service_ok no_jitter
      text_print converter_ok fallback_unused walk_one_file (Some (lit "key"))
      every_dir [lit "explainer.py"] world0
    = (Raise exc, world0).
Proof.
  apply (proj1 (main_guards no_unicode no_unicode sample_http_error service_ok
                  no_jitter text_print converter_ok fallback_unused walk_one_file
                  (Some (lit "key")) every_dir [lit "explainer.py"] world0)).
  right. left. simpl. lia.
Defined.

Lemma process_folder_code_document_witness :
  exists out w',
    process_folder no_unicode no_unicode sample_http_error service_ok no_jitter
      text_print converter_ok fallback_unused walk_one_file (lit "pkg") world0
    = (Ret out, w') /\
    out_code_md out
    = lit "# Project Code" ++ [LF; LF] ++ lit "## 1. a.py" ++ [LF]
      ++ lit "```py" ++ [LF] ++ lit "print(1)" ++ [LF] ++ lit "```" ++ [LF; LF].
Proof.
  destruct (process_folder no_unicode no_unicode sample_http_error service_ok
              no_jitter text_print converter_ok fallback_unused walk_one_file
              (lit "pkg") world0) as [[out | exc] w'] eqn:E;
    [|vm_compute in E; discriminate].
  exists out, w'. split; [reflexivity|].
  rewrite (process_folder_code_document _ _ _ _ _ _ _ _ _ _ _ _ _ E).
  reflexivity.
Defined.

Lemma process_folder_all_rate_limited_witness :
  exists out w',
    process_folder no_unicode no_unicode sample_http_error service_busy no_jitter
      text_print converter_ok fallback_unused walk_one_file (lit "pkg") world0
    = (Ret out, w') /\
    out_explanations out = [lit "Code file 1"] /\
    requests w' = 3.
Proof.
  destruct (process_folder_all_rate_limited no_unicode no_unicode sample_http_error
              service_busy no_jitter text_print converter_ok fallback_unused
              walk_one_file (lit "pkg") world0)
    as (out & w' & Hrun & Hexp & Hreq).
  - intros n req. reflexivity.
  - repeat constructor. discriminate.
  - intros md. left. reflexivity.
  - exists out, w'. split; [exact Hrun|]. split; [exact Hexp | exact Hreq].
Defined.

Lemma collect_allowed_files_limit_witness :
  length (collect_allowed_files (walk_one_file (lit "pkg")) 0 []) <= 1.
Proof.
  apply (proj2 (proj2 (collect_allowed_files_limit (walk_one_file (lit "pkg")) 0))).
  lia.
Defined.

Lemma get_file_type_distribution_counts_witness :
  lit ".py" ∈ ALLOWED_EXTENSIONS /\ 1 <= 1.
Proof.
  destruct (get_file_type_distribution_counts (walk_one_file (lit "pkg")))
    as (_ & Hin & _).
  destruct (Hin (lit ".py") 1) as (Hk & Hv & _); [left; reflexivity|].
  split; [exact Hk | exact Hv].
Defined.

